(** * medvora-voice: the session registry of the HTTP voice API

    A shallow embedding of [index.js] (the request handlers, the session
    [Map] and the expiry sweeper) and of the voice table of
    [utils/voice.util.js], followed by the properties of the session
    lifecycle.

    JavaScript runs every handler to its next [await] without interruption.
    Each handler is therefore split into its synchronous segments; a segment
    ends either with an HTTP response or with a call to an external
    collaborator whose promise the handler awaits.  The server is an event
    loop over these segments: a request arrives, an awaited promise settles,
    or the [setInterval] timer fires.  [GET /health] only reads
    [sessions.size] and has no segment of its own in the loop. *)

From Stdlib Require Import ZArith Floats.
From stdpp Require Import gmap strings list fin_maps.

Set Warnings "-register-all".
Set Warnings "-clear-no-such-hyp".

Local Open Scope string_scope.
Local Open Scope Z_scope.
Local Open Scope list_scope.

(** ** Values *)

(** A field of [req.body]: a parsed JSON value, or [undefined] when the
    request does not carry the field. *)
Inductive jsvalue : Type :=
| JUndefined
| JNull
| JBool (b : bool)
| JNum (x : float)
| JStr (s : string)
| JArray (elems : list jsvalue)
| JObject (fields : list (string * jsvalue)).

(** [!v] is [negb (truthy v)]. *)
Definition truthy (v : jsvalue) : bool :=
  match v with
  | JUndefined | JNull => false
  | JBool b => b
  | JNum x => negb (PrimFloat.eqb x PrimFloat.zero || negb (PrimFloat.eqb x x))
  | JStr s => negb (String.eqb s "")
  | JArray _ | JObject _ => true
  end.

(** [fields] has a property of its own named [key]. *)
Definition own (key : string) (fields : list (string * jsvalue)) : bool :=
  existsb (λ field, String.eqb field.1 key) fields.

(** Whether ToString, which a template literal and a property access
    apply to a value, returns.  It throws a TypeError on an object that
    has a property of its own named "toString": parsed from JSON that
    property is not callable, and [valueOf], if not shadowed as well, is
    [Object.prototype.valueOf], which returns the object itself.  An array
    is converted by [join], which converts each element that is not
    [null] or [undefined]. *)
Fixpoint stringifiable (v : jsvalue) : bool :=
  match v with
  | JArray elems => forallb stringifiable elems
  | JObject fields => negb (own "toString" fields)
  | _ => true
  end.

(** The messages of the TypeErrors V8 throws: at ToString, and at
    [const { property, ... } = req.body] when [req.body] is [undefined]. *)
Definition cannot_convert : string :=
  "Cannot convert object to primitive value".

Definition cannot_destructure (property : string) : string :=
  "Cannot destructure property '" +:+ property +:+
  "' of 'req.body' as it is undefined.".

Definition Buffer : Type := list Byte.byte.

(** An entry of [conversationHistory]. *)
Record message : Type := Message { role : string; content : string }.

(** The object stored in the [sessions] map by [/api/voice/init]. *)
Record session : Type := Session {
  gender : jsvalue;
  osce_id : jsvalue;
  conversationHistory : list message;
  active : bool;
  lastActivity : Z
}.

(** Session objects live on a heap and are shared by reference: the
    [sessions] map holds a reference, and so does every handler that
    looked a session up before an [await].  Objects are never freed, so a
    handler can still write to a session that has left the map. *)
Abbreviation loc := nat.

Record state : Type := State {
  sessions : gmap string loc;
  heap : list session
}.

Definition initial_state : state := State ∅ [].

(** References are only made by allocation, so reading through one never
    misses (see [wf]); the default below is never observed. *)
Definition dangling : session := Session JUndefined JUndefined [] false 0.

Definition deref (st : state) (l : loc) : session :=
  default dangling (heap st !! l).

(** [sessions.get(k)]: the keys are the strings made by [uuidv4()], and a
    [Map] compares keys with SameValueZero, so only a string can hit. *)
Definition sessions_get (st : state) (k : jsvalue) : option loc :=
  match k with
  | JStr s => sessions st !! s
  | _ => None
  end.

(** [sessions.delete(k)]. *)
Definition sessions_delete (st : state) (k : jsvalue) : state :=
  match k with
  | JStr s => State (delete s (sessions st)) (heap st)
  | _ => st
  end.

(** Assignment through a reference: [session.f = ...]. *)
Definition update (st : state) (l : loc) (f : session → session) : state :=
  State (sessions st) (alter f l (heap st)).

Definition set_active (b : bool) (s : session) : session :=
  Session (gender s) (osce_id s) (conversationHistory s) b (lastActivity s).

Definition set_lastActivity (t : Z) (s : session) : session :=
  Session (gender s) (osce_id s) (conversationHistory s) (active s) t.

(** [session.conversationHistory.push(m)]. *)
Definition push (m : message) (s : session) : session :=
  Session (gender s) (osce_id s) (conversationHistory s ++ [m]) (active s)
          (lastActivity s).

(** The session object a live id denotes. *)
Definition live (st : state) (id : string) : option session :=
  sessions st !! id ≫= λ l, heap st !! l.

(** ** Responses, collaborators and handler segments *)

(** The JSON bodies the handlers send.  [Failure m] is
    [{success: false, message: m}]; the others carry [success: true]. *)
Inductive payload : Type :=
| Failure (message : string)
| InitOk (session_id : string)
| StartOk (audio_base64 text : string)
| ProcessOk (transcription response_text audio_base64 : string)
| StopOk
| HistoryOk (history : list message).

Record response : Type := Response { status : nat; body : payload }.

(** The asynchronous calls a handler awaits: the two Sequelize lookups of
    [/init] and the three functions of [utils/voice.util.js]. *)
Inductive call : Type :=
| OscesFindOne (osce_id : jsvalue)
| VirtualPatientSimulationsFindOne (id : jsvalue)
| TranscribeAudio (audioBuffer : Buffer)
| GetChatCompletion (messages : list message)
| GenerateSpeech (text : string) (gender : jsvalue).

(** What an awaited promise settles to.  A row carries its
    [case_description] column, which may be [null]. *)
Inductive value : Type :=
| Row (found : option (option string))
| Text (s : string)
| Audio (b : Buffer).

Inductive settled : Type :=
| Fulfilled (v : value)
| Rejected (message : string).

(** Where a suspended handler resumes, with the locals it still uses. *)
Inductive continuation : Type :=
| InitAfterOsces (gender osce_id : jsvalue)
| InitAfterSimulations (gender osce_id : jsvalue)
| StartAfterSpeech (initialGreeting : string)
| ProcessAfterTranscribe (session : loc)
| ProcessAfterChat (session : loc) (transcription : string)
| ProcessAfterSpeech (transcription aiResponse : string).

(** How a synchronous segment ends. *)
Inductive outcome : Type :=
| Respond (r : response)
| Await (c : call) (k : continuation).

(** What the segment reads from its surroundings: [Date.now()] and the
    string [uuidv4()] returns if the segment calls it. *)
Record env : Type := Env { now : Z; uuid : string }.

Definition failure (code : nat) (m : string) : outcome :=
  Respond (Response code (Failure m)).

Definition success (p : payload) : outcome := Respond (Response 200 p).

Definition maxAge : Z := 30 * 60 * 1000.
Definition sweepInterval : Z := 5 * 60 * 1000.
Definition initialGreeting : string := "Hello Doctor, I'm here for my appointment.".

(** ** The voice table of [utils/voice.util.js] *)

Definition ELEVENLABS_VOICES : gmap string string :=
  <["Male" := "pNInz6obpgDQGcFmaJgB"]>
    (<["Female" := "EXAVITQu4vr4xnSDxMaL"]> ∅).

(** [ELEVENLABS_VOICES] is an object literal, so a property it does not
    own is looked up on [Object.prototype], whose members are truthy. *)
Definition Object_prototype : list string :=
  ["constructor"; "__defineGetter__"; "__defineSetter__"; "hasOwnProperty";
   "__lookupGetter__"; "__lookupSetter__"; "isPrototypeOf";
   "propertyIsEnumerable"; "toString"; "valueOf"; "__proto__";
   "toLocaleString"].

Inductive voice : Type :=
| VoiceId (id : string)
| Inherited (member : string).

(** [ELEVENLABS_VOICES[gender] || ELEVENLABS_VOICES.Male] in
    [generateSpeech], for a [gender] whose property key is [key] (a string
    is its own key). *)
Definition voiceId (key : string) : voice :=
  match ELEVENLABS_VOICES !! key with
  | Some id => VoiceId id
  | None =>
      if decide (key ∈ Object_prototype) then Inherited key
      else VoiceId (default "" (ELEVENLABS_VOICES !! "Male"))
  end.

Section Keys.

(** Number::toString of ECMAScript, by which the engine writes a number as
    a string; its digits play no part below. *)
Variable Number_toString : float → string.

(** ToString of a parsed JSON value, [None] when it throws (see
    [stringifiable]).  The key of a property access [table[v]] is
    [ToString v]. *)
Fixpoint ToString (v : jsvalue) : option string :=
  match v with
  | JUndefined => Some "undefined"
  | JNull => Some "null"
  | JBool b => Some (if b then "true" else "false")
  | JNum x => Some (Number_toString x)
  | JStr s => Some s
  | JArray elems =>
      String.concat "," <$>
        mapM (λ elem, match elem with
                      | JUndefined | JNull => Some ""
                      | _ => ToString elem
                      end) elems
  | JObject fields =>
      if own "toString" fields then None else Some "[object Object]"
  end.

(** The voice [generateSpeech(text, gender = "Male")] asks for; [None]
    when the property access throws, and the promise is rejected. *)
Definition generateSpeech_voice (gender : jsvalue) : option voice :=
  let gender :=
    match gender with JUndefined => JStr "Male" | _ => gender end in
  voiceId <$> ToString gender.

End Keys.

(** ** [transcribeAudio] of [utils/voice.util.js]

    The audio is written to a temporary file and sent to the transcription
    service once per candidate format, until one is accepted.  The
    temporary files live in the parent [root] of the module's directory;
    the file system is the set of the paths that exist, and its calls are
    taken to succeed. *)

Definition supportedFormats : list string :=
  ["webm"; "wav"; "mp3"; "mp4"; "m4a"].

Definition all_formats_failed : string :=
  "All audio formats failed. Audio data may be corrupted.".

(** One pass of the loop: the string [uuidv4()] returns and how
    [audio.transcriptions.create] ends, with [transcription.text] or with
    the message of the error it throws. *)
Record attempt : Type := Attempt { audioId : string; whisper : string + string }.

Definition tempFilePath (root audioId format : string) : string :=
  root +:+ "/temp_audio_" +:+ audioId +:+ "." +:+ format.

(** The [for] loop over the formats still to try, [final] being
    [supportedFormats[supportedFormats.length - 1]].  The result is the
    file system afterwards, the files sent to the service, and what the
    promise of [transcribeAudio] settles to; [None] when [attempts] runs
    out before the loop ends. *)
Fixpoint transcribe_loop (root : string) (final : option string)
    (formats : list string) (attempts : list attempt) (fs : gset string)
  : option (gset string * list string * settled) :=
  match formats with
  | [] => Some (fs, [], Rejected "Failed to transcribe audio")
  | format :: formats =>
      match attempts with
      | [] => None
      | a :: attempts =>
          let path := tempFilePath root (audioId a) format in
          let fs := {[path]} ∪ fs in
          match whisper a with
          | inl text => Some (fs ∖ {[path]}, [path], Fulfilled (Text text))
          | inr _ =>
              let fs := if decide (path ∈ fs) then fs ∖ {[path]} else fs in
              if decide (Some format = final) then
                Some (fs, [path], Rejected all_formats_failed)
              else
                '(fs, sent, r) ← transcribe_loop root final formats attempts fs;
                Some (fs, path :: sent, r)
          end
      end
  end.

Definition transcribeAudio (root : string) (attempts : list attempt)
    (fs : gset string) : option (gset string * list string * settled) :=
  transcribe_loop root (last supportedFormats) supportedFormats attempts fs.

(** The temporary files of the given passes, one format each, in order. *)
Definition temp_files (root : string) (formats : list string)
    (attempts : list attempt) : list string :=
  zip_with (λ a format, tempFilePath root (audioId a) format) attempts formats.

(** Stand-ins for [getPatientPrompt] and [Buffer.toString("base64")], to
    run the server on examples. *)
Definition sample_prompt (case_description : option string) : string :=
  "Here is your patient profile: " +:+ default "null" case_description.

Definition sample_encoding (b : Buffer) : string :=
  String.string_of_list_byte b.

(** A stand-in for Number::toString, to run the examples, none of which
    converts a number. *)
Definition sample_number (x : float) : string := "NaN".

Section Server.

(** [getPatientPrompt] of [utils/voice.util.js] wraps the case description
    in a fixed prompt, and [Buffer.toString("base64")] is Node's; neither
    text matters to the lifecycle of a session. *)
Variable getPatientPrompt : option string → string.
Variable base64 : Buffer → string.

(** Every handler starts by destructuring [req.body] (lines 82, 146, 196,
    269 and 305 of [index.js]) and runs inside a [try] whose [catch]
    answers 500 with the message of the error.  The definitions below are
    the handlers from the destructured fields on, a field the body does
    not have being [JUndefined]; [serve] gives the answer to a request
    whose [req.body] is [undefined], on which the destructuring throws. *)

(** *** [POST /api/voice/init]

    The log line after the check converts [osce_id] and [gender] to
    strings, which throws when one of them cannot be converted. *)

Definition voice_init (st : state) (gender osce_id : jsvalue)
  : state * outcome :=
  if negb (truthy gender) || negb (truthy osce_id) then
    (st, failure 400 "Missing required parameters: gender and osce_id")
  else if negb (stringifiable osce_id && stringifiable gender) then
    (st, failure 500 cannot_convert)
  else
    (st, Await (OscesFindOne osce_id) (InitAfterOsces gender osce_id)).

(** Lines 112-134 of [index.js], once [osceExists] is a row. *)
Definition init_create (st : state) (e : env) (gender osce_id : jsvalue)
    (case_description : option string) : state * outcome :=
  let sessionId := uuid e in
  let conversationHistory :=
    [Message "system" (getPatientPrompt case_description)] in
  let session :=
    Session gender osce_id conversationHistory false (now e) in
  (State (<[sessionId := length (heap st)]> (sessions st))
         (heap st ++ [session]),
   success (InitOk sessionId)).

Definition init_after_osces (st : state) (e : env)
    (gender osce_id : jsvalue) (r : settled) : option (state * outcome) :=
  match r with
  | Rejected m => Some (st, failure 500 m)
  | Fulfilled (Row (Some case_description)) =>
      Some (init_create st e gender osce_id case_description)
  | Fulfilled (Row None) =>
      Some (st, Await (VirtualPatientSimulationsFindOne osce_id)
                      (InitAfterSimulations gender osce_id))
  | Fulfilled _ => None
  end.

Definition init_after_simulations (st : state) (e : env)
    (gender osce_id : jsvalue) (r : settled) : option (state * outcome) :=
  match r with
  | Rejected m => Some (st, failure 500 m)
  | Fulfilled (Row (Some case_description)) =>
      Some (init_create st e gender osce_id case_description)
  | Fulfilled (Row None) => Some (st, failure 404 "OSCE case not found")
  | Fulfilled _ => None
  end.

(** *** [POST /api/voice/start]

    The log lines of this handler and of the next two convert only a
    [session_id] that was found in the [Map], which is a string. *)

Definition voice_start (st : state) (e : env) (session_id : jsvalue)
  : state * outcome :=
  if negb (truthy session_id) then
    (st, failure 400 "Missing required parameter: session_id")
  else
    match sessions_get st session_id with
    | None => (st, failure 404 "Session not found or expired")
    | Some session =>
        let st := update st session (set_active true) in
        let st := update st session (set_lastActivity (now e)) in
        let st :=
          update st session (push (Message "assistant" initialGreeting)) in
        (st, Await (GenerateSpeech initialGreeting (gender (deref st session)))
                   (StartAfterSpeech initialGreeting))
    end.

Definition start_after_speech (st : state) (initialGreeting : string)
    (r : settled) : option (state * outcome) :=
  match r with
  | Rejected m => Some (st, failure 500 m)
  | Fulfilled (Audio audioBuffer) =>
      Some (st, success (StartOk (base64 audioBuffer) initialGreeting))
  | Fulfilled _ => None
  end.

(** *** [POST /api/voice/process]

    [file] is [req.file], absent when the upload has no [audio] part;
    when present it is given by its [buffer].  (An upload over the 50 MB
    limit is refused by multer before this handler runs.) *)

Definition voice_process (st : state) (e : env) (session_id : jsvalue)
    (file : option Buffer) : state * outcome :=
  if negb (truthy session_id) then
    (st, failure 400 "Missing required parameter: session_id")
  else
    match file with
    | None => (st, failure 400 "No audio file provided")
    | Some buffer =>
        match sessions_get st session_id with
        | None => (st, failure 404 "Session not found or expired")
        | Some session =>
            if negb (active (deref st session)) then
              (st, failure 400 "Session not active. Call /start first.")
            else
              let st := update st session (set_lastActivity (now e)) in
              (st, Await (TranscribeAudio buffer)
                         (ProcessAfterTranscribe session))
        end
    end.

Definition process_after_transcribe (st : state) (session : loc)
    (r : settled) : option (state * outcome) :=
  match r with
  | Rejected m => Some (st, failure 500 m)
  | Fulfilled (Text transcription) =>
      let st := update st session (push (Message "user" transcription)) in
      Some (st, Await (GetChatCompletion
                         (conversationHistory (deref st session)))
                      (ProcessAfterChat session transcription))
  | Fulfilled _ => None
  end.

Definition process_after_chat (st : state) (session : loc)
    (transcription : string) (r : settled) : option (state * outcome) :=
  match r with
  | Rejected m => Some (st, failure 500 m)
  | Fulfilled (Text aiResponse) =>
      let st := update st session (push (Message "assistant" aiResponse)) in
      Some (st, Await (GenerateSpeech aiResponse (gender (deref st session)))
                      (ProcessAfterSpeech transcription aiResponse))
  | Fulfilled _ => None
  end.

Definition process_after_speech (st : state)
    (transcription aiResponse : string) (r : settled)
  : option (state * outcome) :=
  match r with
  | Rejected m => Some (st, failure 500 m)
  | Fulfilled (Audio audioBuffer) =>
      Some (st, success (ProcessOk transcription aiResponse
                                   (base64 audioBuffer)))
  | Fulfilled _ => None
  end.

(** *** [POST /api/voice/stop] and [POST /api/voice/history] *)

Definition voice_stop (st : state) (session_id : jsvalue) : state * outcome :=
  if negb (truthy session_id) then
    (st, failure 400 "Missing required parameter: session_id")
  else
    match sessions_get st session_id with
    | None => (st, failure 404 "Session not found")
    | Some _ => (sessions_delete st session_id, success StopOk)
    end.

Definition voice_history (st : state) (session_id : jsvalue)
  : state * outcome :=
  if negb (truthy session_id) then
    (st, failure 400 "Missing required parameter: session_id")
  else
    match sessions_get st session_id with
    | None => (st, failure 404 "Session not found")
    | Some session =>
        let history :=
          (λ msg, Message (role msg) (content msg)) <$>
          filter (λ msg, role msg ≠ "system")
                 (conversationHistory (deref st session)) in
        (st, success (HistoryOk history))
    end.

(** *** [cleanupOldSessions], run by [setInterval] every [sweepInterval] *)

Definition expired (st : state) (now : Z) (entry : string * loc) : Prop :=
  now - lastActivity (deref st entry.2) > maxAge.

#[local] Instance expired_dec st now entry : Decision (expired st now entry).
Proof. unfold expired. apply _. Defined.

Definition cleanupOldSessions (st : state) (now : Z) : state :=
  State (filter (λ entry, ¬ expired st now entry) (sessions st)) (heap st).

(** *** [GET /health]

    [timestamp] is [new Date().toISOString()]. *)



(** ** The event loop *)

Inductive route : Type := Init | Start | Process | Stop | History.

(** A request as its handler finds it.  In the first five, a body parser
    has run: [req.body] is an object and the request is given by the fields
    the handler destructures from it.  In [Bodyless], none has (the request
    has no body, or one that is neither JSON, nor URL-encoded, nor, on
    [/process], multipart): [req.body] is [undefined], and so is
    [req.file]. *)
Inductive request : Type :=
| PostInit (gender osce_id : jsvalue)
| PostStart (session_id : jsvalue)
| PostProcess (session_id : jsvalue) (file : option Buffer)
| PostStop (session_id : jsvalue)
| PostHistory (session_id : jsvalue)
| Bodyless (path : route).

(** The first property of the pattern a handler destructures. *)
Definition destructured (path : route) : string :=
  match path with
  | Init => "gender"
  | Start | Process | Stop | History => "session_id"
  end.

(** The first segment of the handler of a request.  Without a parsed body
    that is the destructuring, which throws, and the [catch]. *)
Definition serve (st : state) (e : env) (rq : request) : state * outcome :=
  match rq with
  | PostInit gender osce_id => voice_init st gender osce_id
  | PostStart session_id => voice_start st e session_id
  | PostProcess session_id file => voice_process st e session_id file
  | PostStop session_id => voice_stop st session_id
  | PostHistory session_id => voice_history st session_id
  | Bodyless path => (st, failure 500 (cannot_destructure (destructured path)))
  end.

(** The segment after an [await].  [None] when the settled value is not
    of the kind the awaited call produces, which no execution shows. *)
Definition resume (st : state) (e : env) (k : continuation) (r : settled)
  : option (state * outcome) :=
  match k with
  | InitAfterOsces gender osce_id => init_after_osces st e gender osce_id r
  | InitAfterSimulations gender osce_id =>
      init_after_simulations st e gender osce_id r
  | StartAfterSpeech greeting => start_after_speech st greeting r
  | ProcessAfterTranscribe session => process_after_transcribe st session r
  | ProcessAfterChat session transcription =>
      process_after_chat st session transcription r
  | ProcessAfterSpeech transcription aiResponse =>
      process_after_speech st transcription aiResponse r
  end.

(** A handler run with nothing else scheduled between its segments: the
    awaited promises settle to [rs], in order, each at its own time.  The
    result is the final state, the collaborator calls made, and the
    response; [None] when [rs] is too short or ill-typed. *)
Fixpoint complete (rs : list (env * settled)) (st : state) (o : outcome)
  : option (state * list call * response) :=
  match o with
  | Respond r => Some (st, [], r)
  | Await c k =>
      match rs with
      | [] => None
      | (e, r) :: rs =>
          '(st, o) ← resume st e k r;
          '(st, cs, resp) ← complete rs st o;
          Some (st, c :: cs, resp)
      end
  end.

(** A whole request, run without interleaving. *)
Definition handle (st : state) (e : env) (rq : request)
    (rs : list (env * settled)) : option (state * list call * response) :=
  let '(st, o) := serve st e rq in complete rs st o.

Record server : Type := Server {
  mem : state;
  pending : gmap nat continuation;
  next_handler : nat
}.

Definition initial_server : server := Server initial_state ∅ 0.

Inductive event : Type :=
| Arrive (rq : request)
| Settle (h : nat) (r : settled)
| Tick.

Inductive action : Type :=
| Reply (h : nat) (r : response)
| Invoke (h : nat) (c : call).

Definition finish (sv : server) (h : nat) (so : state * outcome)
  : server * list action :=
  match so.2 with
  | Respond r =>
      (Server so.1 (delete h (pending sv)) (next_handler sv), [Reply h r])
  | Await c k =>
      (Server so.1 (<[h := k]> (pending sv)) (next_handler sv), [Invoke h c])
  end.

Definition step (sv : server) (e : env) (ev : event) : server * list action :=
  match ev with
  | Arrive rq =>
      let h := next_handler sv in
      finish (Server (mem sv) (pending sv) (S h)) h (serve (mem sv) e rq)
  | Settle h r =>
      match pending sv !! h with
      | None => (sv, [])
      | Some k =>
          match resume (mem sv) e k r with
          | None => (sv, [])
          | Some so => finish sv h so
          end
      end
  | Tick =>
      (Server (cleanupOldSessions (mem sv) (now e)) (pending sv)
              (next_handler sv), [])
  end.

Fixpoint run (sv : server) (evs : list (env * event)) : server * list action :=
  match evs with
  | [] => (sv, [])
  | (e, ev) :: evs =>
      let '(sv1, out1) := step sv e ev in
      let '(sv2, out2) := run sv1 evs in
      (sv2, out1 ++ out2)
  end.

Definition reachable (sv : server) : Prop :=
  ∃ evs, (run initial_server evs).1 = sv.

(** *** Derived runs used by the statements below *)

(** The [k]-th firing of a timer armed at [t0]. *)
Definition sweep_at (t0 : Z) (k : nat) : Z := t0 + Z.of_nat k * sweepInterval.

(** The first [n] firings of the sweeper, nothing else happening. *)
Fixpoint sweeps (t0 : Z) (n : nat) (st : state) : state :=
  match n with
  | O => st
  | S n' => cleanupOldSessions (sweeps t0 n' st) (sweep_at t0 n)
  end.

(** One [/start] request per element of [es], each run to its [await]. *)
Fixpoint starts (es : list env) (st : state) (session_id : jsvalue) : state :=
  match es with
  | [] => st
  | e :: es => starts es (voice_start st e session_id).1 session_id
  end.

(** *** Invariants *)

Definition spoken (m : message) : Prop :=
  role m = "assistant" ∨ role m = "user".

(** A field of an init request that has passed the check and the log
    line. *)
Definition accepted (v : jsvalue) : Prop :=
  truthy v = true ∧ stringifiable v = true.

(** A session object as [/init] makes it and the handlers keep it. *)
Definition wf_session (s : session) : Prop :=
  accepted (gender s) ∧ accepted (osce_id s) ∧
  ∃ prompt rest,
    conversationHistory s = Message "system" prompt :: rest ∧
    Forall spoken rest.

(** A suspended handler holds references into the heap, and [/init]
    suspends only after it has checked its two fields. *)
Definition wf_continuation (st : state) (k : continuation) : Prop :=
  match k with
  | InitAfterOsces g o | InitAfterSimulations g o => accepted g ∧ accepted o
  | ProcessAfterTranscribe l | ProcessAfterChat l _ =>
      (l < length (heap st))%nat
  | _ => True
  end.

Definition wf_state (st : state) : Prop :=
  (∀ id l, sessions st !! id = Some l → (l < length (heap st))%nat) ∧
  Forall wf_session (heap st).

Definition wf (sv : server) : Prop :=
  wf_state (mem sv) ∧
  ∀ h k, pending sv !! h = Some k → wf_continuation (mem sv) k.

Definition wf_outcome (st : state) (o : outcome) : Prop :=
  match o with
  | Await _ k => wf_continuation st k
  | Respond _ => True
  end.

(** [s'] is [s] after some handler segments: the attributes fixed by
    [/init] are the same and the transcript has only been appended to. *)
Definition extends (s s' : session) : Prop :=
  gender s' = gender s ∧ osce_id s' = osce_id s ∧
  ∃ added, conversationHistory s' = conversationHistory s ++ added.

(** Every object of [st] is still there in [st'], extended. *)
Definition grows (st st' : state) : Prop :=
  ∀ l s, heap st !! l = Some s → ∃ s', heap st' !! l = Some s' ∧ extends s s'.

(** What a segment run at [e] may do to a state: keep it well formed,
    extend its objects, and bind no id except the one [uuidv4()] makes, to
    a new object. *)
Definition evolves (st : state) (e : env) (st' : state) : Prop :=
  wf_state st' ∧ grows st st' ∧
  ∀ id l, sessions st' !! id = Some l →
          sessions st !! id = Some l ∨ (id = uuid e ∧ l = length (heap st)).

Definition sound (st : state) (e : env) (so : state * outcome) : Prop :=
  evolves st e so.1 ∧ wf_outcome so.1 so.2.

(** The session object a request is about, if it names one in the store. *)
Definition target (st : state) (rq : request) : option loc :=
  match rq with
  | PostInit _ _ | Bodyless _ => None
  | PostStart session_id | PostProcess session_id _
  | PostStop session_id | PostHistory session_id => sessions_get st session_id
  end.

(** The session object a suspended handler still holds. *)
Definition held (k : continuation) : option loc :=
  match k with
  | ProcessAfterTranscribe l | ProcessAfterChat l _ => Some l
  | _ => None
  end.

(** The answer to [rq] is that of the [catch] to a TypeError thrown
    before the first [await]: at the destructuring of a body that is not
    there, or at the log line of [/init]. *)
Definition thrown (rq : request) (resp : response) : Prop :=
  (∃ path,
     rq = Bodyless path ∧
     resp = Response 500 (Failure (cannot_destructure (destructured path)))) ∨
  (∃ g o,
     rq = PostInit g o ∧ truthy g = true ∧ truthy o = true ∧
     (stringifiable o = false ∨ stringifiable g = false) ∧
     resp = Response 500 (Failure cannot_convert)).


(** No object of [st] that was active is inactive in [st']. *)
Definition stays_active (st st' : state) : Prop :=
  ∀ l s, heap st !! l = Some s →
         ∃ s', heap st' !! l = Some s' ∧ (active s = true → active s' = true).

(** *** A consultation, after the scenario of the specification *)

Definition patient : string := "3f2b8c1e-7a4d-4e0b-9c55-0d6a1b2e4f90".

Definition at_time (t : Z) : env := Env t patient.

(** A later time, at which [uuidv4()] would make another id. *)
Definition later (t : Z) : env := Env t "c0a1d7e2-55b3-4f6a-8d21-7e9f0b3a6c14".

Definition consultation : list (env * event) :=
  [ (at_time 1000, Arrive (PostInit (JStr "Male") (JStr "case-17")));
    (at_time 1010, Settle 0 (Fulfilled (Row (Some (Some "chest pain")))));
    (at_time 2000, Arrive (PostStart (JStr patient)));
    (at_time 2400, Settle 1 (Fulfilled (Audio [])));
    (at_time 9000, Arrive (PostProcess (JStr patient) (Some [])));
    (at_time 9500, Settle 2 (Fulfilled (Text "What brings you in?")));
    (at_time 9900, Settle 2 (Fulfilled (Text "Chest pain.")));
    (at_time 9990, Settle 2 (Fulfilled (Audio []))) ].

(** The server after [/init], after [/start], and after one [/process]. *)
Definition initialized : server := (run initial_server (take 2 consultation)).1.
Definition started : server := (run initial_server (take 4 consultation)).1.
Definition talked : server := (run initial_server consultation).1.

(** The consultation stopped while its process call awaits the
    transcription, and the consultation with a second process request
    arriving before the first is transcribed. *)
Definition interrupted : server :=
  (run initial_server
       (take 5 consultation ++
        [(later 9100, Arrive (PostStop (JStr patient)))])).1.

Definition overlapping : server :=
  (run initial_server
       (take 5 consultation ++
        [(at_time 9200, Arrive (PostProcess (JStr patient) (Some [])))])).1.

(** The consultation, and then a second session that is not started. *)
Definition second_patient : string := uuid (later 0).

Definition two_patients : server :=
  (run talked
       [ (later 20000, Arrive (PostInit (JStr "Female") (JStr "case-18")));
         (later 20010, Settle 3 (Fulfilled (Row (Some None)))) ]).1.

(** ** Reading and writing through references *)

Lemma lookup_update (st : state) (l l' : loc) (f : session → session) :
  heap (update st l f) !! l' =
  if decide (l = l') then f <$> heap st !! l' else heap st !! l'.
Proof.
  unfold update; simpl. case_decide as Hl.
  - subst l'. apply list_lookup_alter_eq.
  - by apply list_lookup_alter_ne.
Qed.

Lemma lookup_update_eq (st : state) (l : loc) (f : session → session) s :
  heap st !! l = Some s → heap (update st l f) !! l = Some (f s).
Proof. intros Hs. rewrite lookup_update, decide_True, Hs; done. Qed.

Lemma lookup_update_ne (st : state) (l l' : loc) (f : session → session) :
  l ≠ l' → heap (update st l f) !! l' = heap st !! l'.
Proof. intros Hne. rewrite lookup_update, decide_False; done. Qed.

Lemma deref_lookup (st : state) (l : loc) s :
  heap st !! l = Some s → deref st l = s.
Proof. unfold deref. by intros ->. Qed.

Lemma deref_update_eq (st : state) (l : loc) (f : session → session) s :
  heap st !! l = Some s → deref (update st l f) l = f s.
Proof. intros Hs. apply deref_lookup. by apply lookup_update_eq. Qed.

Lemma sessions_update (st : state) (l : loc) (f : session → session) :
  sessions (update st l f) = sessions st.
Proof. done. Qed.

Lemma length_update (st : state) (l : loc) (f : session → session) :
  length (heap (update st l f)) = length (heap st).
Proof. apply length_alter. Qed.

Lemma sessions_get_Some (st : state) (k : jsvalue) (l : loc) :
  sessions_get st k = Some l → ∃ id, k = JStr id ∧ sessions st !! id = Some l.
Proof. destruct k; simpl; try done. eauto. Qed.

Lemma complete_Respond (rs : list (env * settled)) (st : state) r :
  complete rs st (Respond r) = Some (st, [], r).
Proof. by destruct rs. Qed.

Lemma complete_success (rs : list (env * settled)) (st : state) p :
  complete rs st (success p) = Some (st, [], Response 200 p).
Proof. apply complete_Respond. Qed.

Lemma complete_failure (rs : list (env * settled)) (st : state) code m :
  complete rs st (failure code m) = Some (st, [], Response code (Failure m)).
Proof. apply complete_Respond. Qed.

Ltac responded :=
  rewrite ?complete_Respond, ?complete_success, ?complete_failure in *;
  simplify_eq.

Ltac all_spoken :=
  repeat (constructor; [ first [ by left | by right ] |]); constructor.

Ltac other_outcomes H :=
  try by (cbn in H; simplify_eq; responded).

Lemma complete_Await (rs : list (env * settled)) (st : state) c k st2 cs resp :
  complete rs st (Await c k) = Some (st2, cs, resp) ↔
  ∃ e r rs' st1 o cs',
    rs = (e, r) :: rs' ∧ resume st e k r = Some (st1, o) ∧
    complete rs' st1 o = Some (st2, cs', resp) ∧ cs = c :: cs'.
Proof.
  split.
  - destruct rs as [|[e r] rs']; simpl; [done|].
    destruct (resume st e k r) as [[st1 o]|] eqn:Hres; simpl; [|done].
    destruct (complete rs' st1 o) as [[[st3 cs'] resp']|] eqn:Hc; simpl;
      [|done].
    intros [= <- <- <-]. by exists e, r, rs', st1, o, cs'.
  - intros (e & r & rs' & st1 & o & cs' & -> & Hres & Hc & ->).
    simpl. rewrite Hres. simpl. by rewrite Hc.
Qed.

(** ** The order of validation in [/process] *)

(** The order of validation that C1 describes, for a process request
    whose body was parsed.  Whatever the store holds, a missing
    [session_id] is answered 400 (validation error), and so is a missing
    audio file; with both present, an id that is not in the store is
    answered 404 (session not found) before the [active] flag is looked
    at; and a session that is there but not active (Initialized) is
    answered 400 "Session not active".  In all four cases the handler
    finishes in its first segment: the store is unchanged and no
    transcription, completion or synthesis call is made, neither in the
    handler run alone nor as an action of the event loop. *)
Theorem process_validation_order (sv : server) (e : env)
    (session_id : jsvalue) (file : option Buffer)
    (rs : list (env * settled)) :
  let st := mem sv in
  let rejected code m :=
    handle st e (PostProcess session_id file) rs
      = Some (st, [], Response code (Failure m)) ∧
    (step sv e (Arrive (PostProcess session_id file))).2
      = [Reply (next_handler sv) (Response code (Failure m))] ∧
    mem (step sv e (Arrive (PostProcess session_id file))).1 = st in
  (truthy session_id = false →
     rejected 400%nat "Missing required parameter: session_id") ∧
  (truthy session_id = true → file = None →
     rejected 400%nat "No audio file provided") ∧
  (truthy session_id = true → is_Some file →
     sessions_get st session_id = None →
     rejected 404%nat "Session not found or expired") ∧
  (truthy session_id = true → is_Some file →
     ∀ l, sessions_get st session_id = Some l →
          active (deref st l) = false →
     rejected 400%nat "Session not active. Call /start first.").
Proof.
  simpl. unfold handle, step, finish, serve, voice_process.
  repeat split; intros;
    repeat match goal with
           | H : is_Some _ |- _ => destruct H as [? ->]
           | H : _ = _ |- _ => rewrite H
           end; simpl; unfold failure; rewrite ?complete_Respond; reflexivity.
Qed.

(** C1, where the code departs from it.  A process request that reaches
    the handler without a parsed body has no [session_id], and yet it is
    not answered 400: the destructuring of [req.body] throws, and the
    [catch] of the handler answers 500 with the message of the TypeError.
    The same request with an empty body is answered 400 "Missing required
    parameter: session_id".  In both cases the store is unchanged and
    nothing is looked up or called. *)
Theorem process_without_body_answers_500 (sv : server) (e : env)
    (rs : list (env * settled)) :
  let st := mem sv in
  let answer :=
    Response 500
      (Failure "Cannot destructure property 'session_id' of 'req.body' as it is undefined.") in
  handle st e (Bodyless Process) rs = Some (st, [], answer) ∧
  step sv e (Arrive (Bodyless Process)) =
    (Server st (delete (next_handler sv) (pending sv)) (S (next_handler sv)),
     [Reply (next_handler sv) answer]) ∧
  status answer ≠ 400%nat ∧
  ∀ file,
    handle st e (PostProcess JUndefined file) rs =
      Some (st, [],
            Response 400 (Failure "Missing required parameter: session_id")).
Proof.
  cbv zeta. split; [apply complete_failure|]. split; [done|]. split; [done|].
  intros file. apply complete_failure.
Qed.

(** ** What the segments append *)

(** The first segment of [/start] on a live session. *)
Lemma voice_start_live (st : state) (e : env) (session_id : jsvalue)
    (l : loc) (s : session) :
  truthy session_id = true →
  sessions_get st session_id = Some l →
  heap st !! l = Some s →
  ∃ st',
    voice_start st e session_id =
      (st', Await (GenerateSpeech initialGreeting (gender s))
                  (StartAfterSpeech initialGreeting)) ∧
    sessions st' = sessions st ∧
    length (heap st') = length (heap st) ∧
    (∀ l', l ≠ l' → heap st' !! l' = heap st !! l') ∧
    heap st' !! l =
      Some (Session (gender s) (osce_id s)
              (conversationHistory s ++ [Message "assistant" initialGreeting])
              true (now e)).
Proof.
  intros Ht Hget Hs. unfold voice_start. rewrite Ht, Hget. simpl.
  pose proof (lookup_update_eq st l (set_active true) s Hs) as H1.
  pose proof (lookup_update_eq _ l (set_lastActivity (now e)) _ H1) as H2.
  pose proof (lookup_update_eq _ l
                (push (Message "assistant" initialGreeting)) _ H2) as H3.
  eexists. split; [|split; [|split; [|split]]].
  - by rewrite (deref_lookup _ _ _ H3).
  - done.
  - by rewrite !length_update.
  - intros l' Hne. by rewrite !lookup_update_ne.
  - exact H3.
Qed.

(** The first segment of [/process] on a live, active session. *)
Lemma voice_process_live (st : state) (e : env) (session_id : jsvalue)
    (buffer : Buffer) (l : loc) (s : session) :
  truthy session_id = true →
  sessions_get st session_id = Some l →
  heap st !! l = Some s →
  active s = true →
  voice_process st e session_id (Some buffer) =
    (update st l (set_lastActivity (now e)),
     Await (TranscribeAudio buffer) (ProcessAfterTranscribe l)).
Proof.
  intros Ht Hget Hs Ha. unfold voice_process.
  by rewrite Ht, Hget, (deref_lookup _ _ _ Hs), Ha.
Qed.

(** Whatever else ran since the request arrived, the segment after the
    transcription appends the user turn to the session as it is then. *)
Lemma process_after_transcribe_appends (st : state) (l : loc) (s : session)
    (transcription : string) :
  heap st !! l = Some s →
  process_after_transcribe st l (Fulfilled (Text transcription)) =
    Some (update st l (push (Message "user" transcription)),
          Await (GetChatCompletion
                   (conversationHistory s ++ [Message "user" transcription]))
                (ProcessAfterChat l transcription)).
Proof.
  intros Hs. unfold process_after_transcribe.
  by erewrite deref_update_eq by eauto.
Qed.

(** Likewise the segment after the completion appends the assistant turn. *)
Lemma process_after_chat_appends (st : state) (l : loc) (s : session)
    (transcription aiResponse : string) :
  heap st !! l = Some s →
  process_after_chat st l transcription (Fulfilled (Text aiResponse)) =
    Some (update st l (push (Message "assistant" aiResponse)),
          Await (GenerateSpeech aiResponse (gender s))
                (ProcessAfterSpeech transcription aiResponse)).
Proof.
  intros Hs. unfold process_after_chat.
  by erewrite deref_update_eq by eauto.
Qed.

(** C2.  On a live session, a start that succeeds (answers 200) has
    appended exactly one turn, the assistant greeting; and a process that
    succeeds was given a transcription [t] and a completion [r] by the
    collaborators and has appended exactly the user turn [t] followed by
    the assistant turn [r].  Both do succeed when the collaborators do.
    The handlers are run here with nothing else scheduled between their
    segments; [process_after_transcribe_appends] and
    [process_after_chat_appends] give the same appends for each segment
    taken alone. *)
Theorem turns_appended (st : state) (e : env) (session_id : jsvalue)
    (l : loc) (s : session) :
  truthy session_id = true →
  sessions_get st session_id = Some l →
  heap st !! l = Some s →
  let greeting :=
    Message "assistant" "Hello Doctor, I'm here for my appointment." in
  (∀ rs st' cs p,
     handle st e (PostStart session_id) rs = Some (st', cs, Response 200 p) →
     conversationHistory (deref st' l) = conversationHistory s ++ [greeting]) ∧
  (∀ e1 audio rs, ∃ st',
     handle st e (PostStart session_id) ((e1, Fulfilled (Audio audio)) :: rs)
       = Some (st', [GenerateSpeech (content greeting) (gender s)],
               Response 200 (StartOk (base64 audio) (content greeting))) ∧
     conversationHistory (deref st' l) = conversationHistory s ++ [greeting]) ∧
  (∀ buffer rs st' cs p,
     handle st e (PostProcess session_id (Some buffer)) rs
       = Some (st', cs, Response 200 p) →
     ∃ e1 e2 e3 t r audio rs',
       rs = (e1, Fulfilled (Text t)) :: (e2, Fulfilled (Text r))
              :: (e3, Fulfilled (Audio audio)) :: rs' ∧
       p = ProcessOk t r (base64 audio) ∧
       cs = [TranscribeAudio buffer;
             GetChatCompletion (conversationHistory s ++ [Message "user" t]);
             GenerateSpeech r (gender s)] ∧
       conversationHistory (deref st' l) =
         conversationHistory s ++ [Message "user" t; Message "assistant" r]) ∧
  (active s = true →
   ∀ buffer e1 e2 e3 t r audio rs, ∃ st' cs,
     handle st e (PostProcess session_id (Some buffer))
       ((e1, Fulfilled (Text t)) :: (e2, Fulfilled (Text r))
          :: (e3, Fulfilled (Audio audio)) :: rs)
       = Some (st', cs, Response 200 (ProcessOk t r (base64 audio))) ∧
     conversationHistory (deref st' l) =
       conversationHistory s ++ [Message "user" t; Message "assistant" r]).
Proof.
  intros Ht Hget Hs greeting.
  destruct (voice_start_live st e session_id l s Ht Hget Hs)
    as (st1 & Hstart & _ & _ & _ & Hl1).
  assert (∀ buffer, active s = true →
    ∃ s0, heap (update st l (set_lastActivity (now e))) !! l = Some s0 ∧
          conversationHistory s0 = conversationHistory s ∧
          gender s0 = gender s ∧
          voice_process st e session_id (Some buffer) =
            (update st l (set_lastActivity (now e)),
             Await (TranscribeAudio buffer) (ProcessAfterTranscribe l)))
    as Hproc.
  { intros buffer Ha. eexists. split; [by apply lookup_update_eq|].
    split; [done|]. split; [done|]. by apply voice_process_live with s. }
  repeat split.
  - intros rs st' cs p. unfold handle, serve. rewrite Hstart.
    intros (e1 & r & rs' & st2 & o & cs' & -> & Hres & Hc & ->)%complete_Await.
    destruct r as [[| |audio]|m]; simplify_eq/=.
    + responded.
      by rewrite (deref_lookup _ _ _ Hl1).
    + responded.
  - intros e1 audio rs. exists st1. unfold handle, serve. rewrite Hstart.
    simpl. rewrite complete_success. simpl.
    by rewrite (deref_lookup _ _ _ Hl1).
  - intros buffer rs st' cs p. unfold handle, serve, voice_process.
    rewrite Ht, Hget, (deref_lookup _ _ _ Hs). simpl.
    destruct (active s) eqn:Ha; simpl.
    2:{ intros; responded. }
    destruct (Hproc buffer eq_refl) as (s0 & Hs0 & Hh0 & Hg0 & _).
    intros (e1 & r1 & rs1 & st2 & o & cs1 & -> & Hres & Hc & ->)%complete_Await.
    cbn [resume] in Hres.
    destruct r1 as [[?|t|?]|m]; other_outcomes Hres.
    rewrite (process_after_transcribe_appends _ _ _ _ Hs0) in Hres.
    simplify_eq.
    apply complete_Await in Hc
      as (e2 & r2 & rs2 & st3 & o & cs2 & -> & Hres & Hc & ->).
    cbn [resume] in Hres.
    destruct r2 as [[?|r|?]|m]; other_outcomes Hres.
    erewrite process_after_chat_appends in Hres
      by (by apply lookup_update_eq).
    simplify_eq.
    apply complete_Await in Hc
      as (e3 & r3 & rs3 & st4 & o & cs3 & -> & Hres & Hc & ->).
    destruct r3 as [[| |audio]|m]; simplify_eq/=; responded.
    exists e1, e2, e3, t, r, audio, rs3.
    rewrite Hh0, Hg0. repeat split.
    erewrite deref_update_eq by (by apply lookup_update_eq).
    simpl. by rewrite Hh0, <- app_assoc.
  - intros Ha buffer e1 e2 e3 t r audio rs.
    destruct (Hproc buffer Ha) as (s0 & Hs0 & Hh0 & Hg0 & Hp).
    unfold handle, serve. rewrite Hp. do 2 eexists.
    split.
    + apply complete_Await. do 6 eexists.
      split; [done|]. split.
      { simpl. by apply process_after_transcribe_appends. }
      split; [|done].
      apply complete_Await. do 6 eexists.
      split; [done|]. split.
      { simpl. apply process_after_chat_appends. by apply lookup_update_eq. }
      split; [|done].
      apply complete_Await. do 6 eexists.
      split; [done|]. split; [done|]. split; [|done].
      apply complete_success.
    + erewrite deref_update_eq by (by apply lookup_update_eq).
      simpl. by rewrite Hh0, <- app_assoc.
Qed.

(** ** What [/history] shows *)

Lemma voice_history_live (st : state) (session_id : jsvalue) (l : loc)
    (s : session) :
  truthy session_id = true →
  sessions_get st session_id = Some l →
  heap st !! l = Some s →
  voice_history st session_id =
    (st, success (HistoryOk (filter (λ msg, role msg ≠ "system")
                                    (conversationHistory s)))).
Proof.
  intros Ht Hget Hs. unfold voice_history.
  rewrite Ht, Hget, (deref_lookup _ _ _ Hs). simpl. do 3 f_equal.
  rewrite <- (list_fmap_id (filter _ _)) at 2.
  apply list_fmap_ext. by intros _ [] _.
Qed.

Lemma filter_spoken_app (h added : list message) :
  Forall spoken added →
  filter (λ msg, role msg ≠ "system") (h ++ added) =
  filter (λ msg, role msg ≠ "system") h ++ added.
Proof.
  intros Hadded. rewrite filter_app. f_equal.
  induction Hadded as [|m added Hm _ IH]; [done|].
  rewrite filter_cons_True, IH; [done|].
  by destruct Hm as [-> | ->].
Qed.

(** C6.  A process call whose transcription succeeded but whose chat
    completion or speech synthesis then throws answers 500 and leaves what
    it had already pushed: the user turn (and, when only the synthesis
    failed, the assistant turn as well) stays in the transcript, and a
    following history call on the session ends with it. *)
Theorem failed_process_keeps_user_turn (st : state) (e : env)
    (session_id : jsvalue) (buffer : Buffer) (l : loc) (s : session)
    (e1 e2 e3 : env) (t r m : string) (rs : list (env * settled)) :
  truthy session_id = true →
  sessions_get st session_id = Some l →
  heap st !! l = Some s →
  active s = true →
  let user := Message "user" t in
  let assistant := Message "assistant" r in
  (∃ st' shown,
     handle st e (PostProcess session_id (Some buffer))
       ((e1, Fulfilled (Text t)) :: (e2, Rejected m) :: rs)
       = Some (st',
               [TranscribeAudio buffer;
                GetChatCompletion (conversationHistory s ++ [user])],
               Response 500 (Failure m)) ∧
     conversationHistory (deref st' l) = conversationHistory s ++ [user] ∧
     voice_history st' session_id
       = (st', success (HistoryOk (shown ++ [user])))) ∧
  (∃ st' shown,
     handle st e (PostProcess session_id (Some buffer))
       ((e1, Fulfilled (Text t)) :: (e2, Fulfilled (Text r))
          :: (e3, Rejected m) :: rs)
       = Some (st',
               [TranscribeAudio buffer;
                GetChatCompletion (conversationHistory s ++ [user]);
                GenerateSpeech r (gender s)],
               Response 500 (Failure m)) ∧
     conversationHistory (deref st' l)
       = conversationHistory s ++ [user; assistant] ∧
     voice_history st' session_id
       = (st', success (HistoryOk (shown ++ [user; assistant])))).
Proof.
  intros Ht Hget Hs Ha user assistant.
  unfold handle, serve. rewrite (voice_process_live _ _ _ _ _ _ Ht Hget Hs Ha).
  set (st0 := update st l (set_lastActivity (now e))).
  set (st1 := update st0 l (push user)).
  set (st2 := update st1 l (push assistant)).
  assert (heap st0 !! l = Some (set_lastActivity (now e) s)) as H0
    by by apply lookup_update_eq.
  assert (heap st1 !! l = Some (push user (set_lastActivity (now e) s))) as H1
    by by apply lookup_update_eq.
  assert (heap st2 !! l =
          Some (push assistant (push user (set_lastActivity (now e) s)))) as H2
    by by apply lookup_update_eq.
  assert (Forall spoken [user]) as Hu by all_spoken.
  assert (Forall spoken [user; assistant]) as Hua by all_spoken.
  split.
  - exists st1, (filter (λ msg, role msg ≠ "system") (conversationHistory s)).
    split; [|split].
    + apply complete_Await. do 6 eexists. split; [done|]. split.
      { cbn [resume]. by apply process_after_transcribe_appends. }
      split; [|done].
      apply complete_Await. do 6 eexists. split; [done|]. split; [done|].
      split; [|done]. apply complete_failure.
    + by rewrite (deref_lookup _ _ _ H1).
    + rewrite (voice_history_live st1 _ _ _ Ht Hget H1). simpl.
      by rewrite filter_spoken_app.
  - exists st2, (filter (λ msg, role msg ≠ "system") (conversationHistory s)).
    split; [|split].
    + apply complete_Await. do 6 eexists. split; [done|]. split.
      { cbn [resume]. by apply process_after_transcribe_appends. }
      split; [|done].
      apply complete_Await. do 6 eexists. split; [done|]. split.
      { cbn [resume]. by apply process_after_chat_appends. }
      split; [|done].
      apply complete_Await. do 6 eexists. split; [done|]. split; [done|].
      split; [|done]. apply complete_failure.
    + rewrite (deref_lookup _ _ _ H2). simpl. by rewrite <- app_assoc.
    + rewrite (voice_history_live st2 _ _ _ Ht Hget H2). simpl.
      by rewrite <- app_assoc, filter_spoken_app.
Qed.

(** ** Starting more than once *)

(** C10.  [/start] does not look at the [active] flag.  On a session that
    is already active it is accepted again: it answers 200 when the
    synthesis succeeds, leaves [active] true and pushes one more greeting.
    After [n] start requests (one per element of [es]) the transcript has
    [n] more greetings, whatever the state of the session was before. *)
Theorem start_is_repeatable (st : state) (session_id : jsvalue) (l : loc)
    (s : session) (es : list env) :
  truthy session_id = true →
  sessions_get st session_id = Some l →
  heap st !! l = Some s →
  let greeting :=
    Message "assistant" "Hello Doctor, I'm here for my appointment." in
  (active s = true →
   ∀ e e1 audio rs,
     handle st e (PostStart session_id) ((e1, Fulfilled (Audio audio)) :: rs)
       = Some ((voice_start st e session_id).1,
               [GenerateSpeech (content greeting) (gender s)],
               Response 200 (StartOk (base64 audio) (content greeting))) ∧
     active (deref (voice_start st e session_id).1 l) = true ∧
     conversationHistory (deref (voice_start st e session_id).1 l)
       = conversationHistory s ++ [greeting]) ∧
  sessions (starts es st session_id) = sessions st ∧
  conversationHistory (deref (starts es st session_id) l)
    = conversationHistory s ++ replicate (length es) greeting ∧
  (es ≠ [] → active (deref (starts es st session_id) l) = true).
Proof.
  intros Ht Hget Hs greeting. split.
  { intros _ e e1 audio rs.
    destruct (voice_start_live st e session_id l s Ht Hget Hs)
      as (st1 & Hstart & _ & _ & _ & Hl1).
    unfold handle, serve. rewrite Hstart. simpl.
    rewrite complete_success, (deref_lookup _ _ _ Hl1). done. }
  revert st s Hget Hs.
  induction es as [|e es IH]; intros st s Hget Hs.
  { simpl. rewrite (deref_lookup _ _ _ Hs), app_nil_r. done. }
  destruct (voice_start_live st e session_id l s Ht Hget Hs)
    as (st1 & Hstart & Hsess & _ & _ & Hl1).
  assert (sessions_get st1 session_id = Some l) as Hget1.
  { destruct session_id; try done. simpl in *. by rewrite Hsess. }
  simpl starts. rewrite Hstart. simpl.
  destruct (IH st1 _ Hget1 Hl1) as (IH1 & IH2 & IH3).
  split; [by rewrite IH1|]. split.
  - rewrite IH2. simpl. by rewrite <- app_assoc.
  - intros _. destruct es as [|e' es'].
    + simpl. by rewrite (deref_lookup _ _ _ Hl1).
    + by apply IH3.
Qed.

(** ** Invariants of the event loop *)

Lemma extends_refl (s : session) : extends s s.
Proof. repeat split. exists []. by rewrite app_nil_r. Qed.

Lemma extends_trans (s1 s2 s3 : session) :
  extends s1 s2 → extends s2 s3 → extends s1 s3.
Proof.
  intros (Hg1 & Ho1 & a1 & Ha1) (Hg2 & Ho2 & a2 & Ha2).
  split; [congruence|]. split; [congruence|].
  exists (a1 ++ a2). by rewrite Ha2, Ha1, app_assoc.
Qed.

Lemma extends_set_active b s : extends s (set_active b s).
Proof. repeat split. exists []. simpl. by rewrite app_nil_r. Qed.

Lemma extends_set_lastActivity t s : extends s (set_lastActivity t s).
Proof. repeat split. exists []. simpl. by rewrite app_nil_r. Qed.

Lemma extends_push m s : extends s (push m s).
Proof. repeat split. by exists [m]. Qed.

Lemma wf_session_set_active b s : wf_session s → wf_session (set_active b s).
Proof. done. Qed.

Lemma wf_session_set_lastActivity t s :
  wf_session s → wf_session (set_lastActivity t s).
Proof. done. Qed.

Lemma wf_session_push m s : spoken m → wf_session s → wf_session (push m s).
Proof.
  intros Hm (Hg & Ho & prompt & rest & Hh & Hrest).
  split; [done|]. split; [done|]. exists prompt, (rest ++ [m]).
  simpl. rewrite Hh. split; [done|].
  apply Forall_app. split; [done|]. by constructor.
Qed.

Lemma grows_refl (st : state) : grows st st.
Proof. intros l s Hs. exists s. split; [done|]. apply extends_refl. Qed.

Lemma grows_same_heap (st st' : state) : heap st' = heap st → grows st st'.
Proof. intros Hh l s Hs. exists s. rewrite Hh. split; [done|]. apply extends_refl. Qed.

Lemma grows_trans (st1 st2 st3 : state) :
  grows st1 st2 → grows st2 st3 → grows st1 st3.
Proof.
  intros H12 H23 l s1 Hs1.
  destruct (H12 l s1 Hs1) as (s2 & Hs2 & He12).
  destruct (H23 l s2 Hs2) as (s3 & Hs3 & He23).
  exists s3. split; [done|]. by apply extends_trans with s2.
Qed.

Lemma grows_length (st st' : state) :
  grows st st' → (length (heap st) ≤ length (heap st'))%nat.
Proof.
  intros Hg. destruct (decide (length (heap st) = 0%nat)) as [->|Hne]; [lia|].
  destruct (lookup_lt_is_Some_2 (heap st) (pred (length (heap st))))
    as [s Hs]; [lia|].
  destruct (Hg _ _ Hs) as (s' & Hs' & _).
  apply lookup_lt_Some in Hs'. lia.
Qed.

Lemma grows_update (st : state) (l : loc) (f : session → session) :
  (∀ s, extends s (f s)) → grows st (update st l f).
Proof.
  intros Hf l' s Hs. rewrite lookup_update. case_decide as Hl.
  - subst l'. rewrite Hs. simpl. eauto.
  - exists s. split; [done|]. apply extends_refl.
Qed.

Lemma wf_state_update (st : state) (l : loc) (f : session → session) :
  (∀ s, wf_session s → wf_session (f s)) →
  wf_state st → wf_state (update st l f).
Proof.
  intros Hf [Hrefs Hheap]. split.
  - intros id l'. rewrite sessions_update, length_update. apply Hrefs.
  - simpl. apply Forall_alter; [done|]. intros s _. apply Hf.
Qed.

Lemma wf_continuation_grows (st st' : state) (k : continuation) :
  grows st st' → wf_continuation st k → wf_continuation st' k.
Proof.
  intros Hg%grows_length. destruct k; simpl; try done; lia.
Qed.

Lemma evolves_refl (st : state) (e : env) : wf_state st → evolves st e st.
Proof. intros Hwf. split; [done|]. split; [apply grows_refl|]. eauto. Qed.

Lemma evolves_update (st : state) (e : env) (st' : state) (l : loc)
    (f : session → session) :
  (∀ s, wf_session s → wf_session (f s)) →
  (∀ s, extends s (f s)) →
  evolves st e st' → evolves st e (update st' l f).
Proof.
  intros Hwf Hext (Hwf' & Hg & Hids). split; [|split].
  - by apply wf_state_update.
  - apply grows_trans with st'; [done|]. by apply grows_update.
  - done.
Qed.

Lemma evolves_delete (st : state) (e : env) (k : jsvalue) :
  wf_state st → evolves st e (sessions_delete st k).
Proof.
  intros [Hrefs Hheap]. destruct k; try by apply evolves_refl.
  split; [|split].
  - split; [|done]. simpl. intros id l [_ Hl]%lookup_delete_Some.
    by apply Hrefs in Hl.
  - by apply grows_same_heap.
  - simpl. intros id l [_ Hl]%lookup_delete_Some. by left.
Qed.

Lemma evolves_cleanup (st : state) (e : env) :
  wf_state st → evolves st e (cleanupOldSessions st (now e)).
Proof.
  intros [Hrefs Hheap]. split; [|split].
  - split; [|done]. simpl. intros id l [Hl _]%map_lookup_filter_Some.
    by apply Hrefs in Hl.
  - by apply grows_same_heap.
  - simpl. intros id l [Hl _]%map_lookup_filter_Some. by left.
Qed.

Lemma evolves_create (st : state) (e : env) (gender osce_id : jsvalue)
    (case_description : option string) :
  wf_state st → accepted gender → accepted osce_id →
  evolves st e (init_create st e gender osce_id case_description).1.
Proof.
  intros [Hrefs Hheap] Hg Ho. split; [|split].
  - split; simpl.
    + intros id l. rewrite length_app. simpl.
      intros [[_ <-]|[_ Hl]]%lookup_insert_Some; [lia|].
      apply Hrefs in Hl. lia.
    + apply Forall_app. split; [done|]. constructor; [|done].
      split; [done|]. split; [done|]. by eexists _, [].
  - intros l s Hs. exists s. split; [|apply extends_refl].
    simpl. rewrite lookup_app_l; [done|]. by apply lookup_lt_Some in Hs.
  - intros id l. simpl.
    intros [[<- <-]|[_ Hl]]%lookup_insert_Some; [by right|by left].
Qed.

Lemma sessions_get_in_heap (st : state) (k : jsvalue) (l : loc) :
  wf_state st → sessions_get st k = Some l → (l < length (heap st))%nat.
Proof.
  intros [Hrefs _] (id & -> & Hl)%sessions_get_Some. by apply Hrefs in Hl.
Qed.

Lemma sound_same (st : state) (e : env) (o : outcome) :
  wf_state st → wf_outcome st o → sound st e (st, o).
Proof. intros Hwf Ho. split; [by apply evolves_refl|done]. Qed.

Ltac evolve :=
  repeat first
    [ by apply evolves_refl
    | apply evolves_update;
        [ first [ exact (wf_session_set_active _)
                | exact (wf_session_set_lastActivity _)
                | intros ?; apply wf_session_push; first [by left | by right] ]
        | first [ exact (extends_set_active _)
                | exact (extends_set_lastActivity _)
                | exact (extends_push _) ]
        | ] ].

Lemma serve_sound (st : state) (e : env) (rq : request) :
  wf_state st → sound st e (serve st e rq).
Proof.
  intros Hwf. destruct rq as [g o|sid|sid file|sid|sid|path]; simpl.
  - unfold voice_init.
    destruct (truthy g) eqn:Hg, (truthy o) eqn:Ho; try by apply sound_same.
    destruct (stringifiable o) eqn:Hso, (stringifiable g) eqn:Hsg;
      by apply sound_same.
  - unfold voice_start. destruct (negb _); [by apply sound_same|].
    destruct (sessions_get st sid) as [l|]; [|by apply sound_same].
    split; [|done]. simpl. evolve.
  - unfold voice_process. destruct (negb _); [by apply sound_same|].
    destruct file as [buffer|]; [|by apply sound_same].
    destruct (sessions_get st sid) as [l|] eqn:Hget; [|by apply sound_same].
    destruct (negb _); [by apply sound_same|].
    split; simpl; [evolve|].
    rewrite length_alter. by apply sessions_get_in_heap with sid.
  - unfold voice_stop. destruct (negb _); [by apply sound_same|].
    destruct (sessions_get st sid) as [l|]; [|by apply sound_same].
    split; [|done]. by apply evolves_delete.
  - unfold voice_history. destruct (negb _); [by apply sound_same|].
    by destruct (sessions_get st sid) as [l|]; apply sound_same.
  - by apply sound_same.
Qed.

Lemma resume_sound (st : state) (e : env) (k : continuation) (r : settled)
    (so : state * outcome) :
  wf_state st → wf_continuation st k →
  resume st e k r = Some so → sound st e so.
Proof.
  intros Hwf Hk. destruct k as [g o|g o|greeting|l|l t|t a]; simpl.
  - destruct r as [[[cd|]| |]|m]; simpl; intros [= <-];
      try by apply sound_same.
    destruct Hk. split; [by apply evolves_create|done].
  - destruct r as [[[cd|]| |]|m]; simpl; intros [= <-];
      try by apply sound_same.
    destruct Hk. split; [by apply evolves_create|done].
  - destruct r as [[| |audio]|m]; simpl; intros [= <-]; by apply sound_same.
  - destruct r as [[|t|]|m]; simpl; intros [= <-]; try by apply sound_same.
    split; simpl; [evolve|]. by rewrite length_alter.
  - destruct r as [[|a|]|m]; simpl; intros [= <-]; try by apply sound_same.
    split; simpl; [evolve|done].
  - destruct r as [[| |audio]|m]; simpl; intros [= <-]; by apply sound_same.
Qed.

Lemma finish_wf (sv : server) (e : env) (h : nat) (so : state * outcome) :
  wf sv → sound (mem sv) e so →
  wf (finish sv h so).1 ∧ evolves (mem sv) e (mem (finish sv h so).1).
Proof.
  intros [Hwf Hpending] [Hev Ho]. destruct so as [st' [r|c k]]; simpl in *.
  - split; [|done]. split; [apply Hev|]. simpl.
    intros h' k' [_ Hk']%lookup_delete_Some.
    apply wf_continuation_grows with (mem sv); [apply Hev|eauto].
  - split; [|done]. split; [apply Hev|]. simpl.
    intros h' k' [[_ <-]|[_ Hk']]%lookup_insert_Some; [done|].
    apply wf_continuation_grows with (mem sv); [apply Hev|eauto].
Qed.

Lemma step_wf (sv : server) (e : env) (ev : event) :
  wf sv → wf (step sv e ev).1 ∧ evolves (mem sv) e (mem (step sv e ev).1).
Proof.
  intros Hwf. destruct ev as [rq|h r|]; simpl.
  - apply (finish_wf (Server (mem sv) (pending sv) (S (next_handler sv)))).
    + done.
    + apply serve_sound, Hwf.
  - destruct (pending sv !! h) as [k|] eqn:Hk;
      [|split; [done|apply evolves_refl, Hwf]].
    destruct (resume (mem sv) e k r) as [so|] eqn:Hres;
      [|split; [done|apply evolves_refl, Hwf]].
    apply finish_wf; [done|].
    destruct Hwf as [Hst Hpending]. eapply resume_sound; eauto.
  - destruct Hwf as [Hst Hpending].
    pose proof (evolves_cleanup _ e Hst) as Hev.
    split; [|exact Hev]. split; [apply Hev|]. simpl.
    intros h k Hk. eapply wf_continuation_grows; [apply Hev|eauto].
Qed.

Lemma run_cons (sv : server) (e : env) (ev : event) evs :
  (run sv ((e, ev) :: evs)).1 = (run (step sv e ev).1 evs).1.
Proof.
  cbn [run]. destruct (step sv e ev) as [sv1 out1]. cbn [fst].
  by destruct (run sv1 evs) as [sv2 out2].
Qed.

Lemma run_cons_actions (sv : server) (e : env) (ev : event) evs :
  (run sv ((e, ev) :: evs)).2 =
  (step sv e ev).2 ++ (run (step sv e ev).1 evs).2.
Proof.
  cbn [run]. destruct (step sv e ev) as [sv1 out1]. cbn [fst snd].
  by destruct (run sv1 evs) as [sv2 out2].
Qed.

Lemma run_app (sv : server) (evs1 evs2 : list (env * event)) :
  (run sv (evs1 ++ evs2)).1 = (run (run sv evs1).1 evs2).1.
Proof.
  revert sv. induction evs1 as [|[e ev] evs1 IH]; intros sv; [done|].
  by rewrite <- app_comm_cons, !run_cons, IH.
Qed.

Lemma run_wf (sv : server) (evs : list (env * event)) :
  wf sv → wf (run sv evs).1 ∧ grows (mem sv) (mem (run sv evs).1).
Proof.
  revert sv. induction evs as [|[e ev] evs IH]; intros sv Hwf.
  { split; [done|apply grows_refl]. }
  rewrite run_cons. destruct (step_wf sv e ev Hwf) as [Hwf1 Hev1].
  destruct (IH _ Hwf1) as [Hwf2 Hg2]. split; [done|].
  eapply grows_trans; [apply Hev1|done].
Qed.

(** [handle] is the event loop with nothing scheduled between the
    segments of the handler: the request arrives and its promises settle
    one after the other. *)
Lemma complete_run (rs : list (env * settled)) (sv : server) (h : nat)
    (st : state) (o : outcome) st' cs resp :
  complete rs st o = Some (st', cs, resp) →
  let settles :=
    (λ er : env * settled, (er.1, Settle h er.2)) <$> take (length cs) rs in
  let sv1 := (finish sv h (st, o)).1 in
  mem (run sv1 settles).1 = st' ∧
  (finish sv h (st, o)).2 ++ (run sv1 settles).2
    = (Invoke h <$> cs) ++ [Reply h resp].
Proof.
  revert sv st o cs. induction rs as [|[e1 r1] rs IH]; intros sv st o cs.
  - destruct o as [r|c k]; [|done]. by intros [= <- <- <-].
  - destruct o as [r|c k]; [by intros [= <- <- <-]|].
    intros (e & r & rs' & st1 & o1 & cs' & [= <- <- <-] & Hres & Hc & ->)
      %complete_Await.
    cbn zeta. cbn [length take fmap list_fmap fst snd].
    rewrite run_cons, run_cons_actions.
    assert (step (finish sv h (st, Await c k)).1 e1 (Settle h r1)
            = finish (finish sv h (st, Await c k)).1 h (st1, o1)) as ->.
    { cbn [step finish fst snd pending mem]. rewrite lookup_insert_eq.
      by rewrite Hres. }
    destruct (IH (finish sv h (st, Await c k)).1 st1 o1 cs' Hc) as [IH1 IH2].
    split; [exact IH1|]. cbn zeta in IH2.
    cbn [finish fst snd app]. f_equal. exact IH2.
Qed.

Lemma handle_run (sv : server) (e : env) (rq : request)
    (rs : list (env * settled)) st' cs resp :
  handle (mem sv) e rq rs = Some (st', cs, resp) →
  let h := next_handler sv in
  let settles :=
    (λ er : env * settled, (er.1, Settle h er.2)) <$> take (length cs) rs in
  mem (run sv ((e, Arrive rq) :: settles)).1 = st' ∧
  (run sv ((e, Arrive rq) :: settles)).2
    = (Invoke h <$> cs) ++ [Reply h resp].
Proof.
  unfold handle. destruct (serve (mem sv) e rq) as [st o] eqn:Hserve.
  intros Hc. rewrite run_cons, run_cons_actions.
  cbn [step]. rewrite Hserve.
  apply (complete_run rs
           (Server (mem sv) (pending sv) (S (next_handler sv)))
           (next_handler sv) st o st' cs resp Hc).
Qed.

Lemma wf_initial_server : wf initial_server.
Proof. split; [split|]; [done|constructor|done]. Qed.

Lemma reachable_wf (sv : server) : reachable sv → wf sv.
Proof. intros [evs <-]. apply run_wf, wf_initial_server. Qed.

(** ** The transcript *)

(** C8.  In every state the server can reach, the transcript of a live
    session is not empty: it starts with the system turn and goes on with
    assistant and user turns only.  [/init] stores the new session with
    the one-turn transcript made of the system prompt, not active, under
    the fresh id.  And whatever happens afterwards, the transcript of a
    session object is only appended to: at any later time it is the
    earlier transcript followed by the turns pushed since, so the system
    turn stays first and nothing is removed or reordered. *)
Theorem transcript_starts_with_system_turn (sv : server) :
  reachable sv →
  (∀ id s, live (mem sv) id = Some s →
     conversationHistory s ≠ [] ∧
     ∃ prompt rest,
       conversationHistory s = Message "system" prompt :: rest ∧
       Forall spoken rest) ∧
  (∀ e g o case_description,
     let st' := (init_create (mem sv) e g o case_description).1 in
     live st' (uuid e) =
       Some (Session g o
               [Message "system" (getPatientPrompt case_description)]
               false (now e))) ∧
  (∀ evs id l s,
     sessions (mem sv) !! id = Some l → heap (mem sv) !! l = Some s →
     ∃ s' added,
       heap (mem (run sv evs).1) !! l = Some s' ∧
       conversationHistory s' = conversationHistory s ++ added).
Proof.
  intros Hreach. pose proof (reachable_wf sv Hreach) as [[Hrefs Hheap] _].
  split; [|split].
  - intros id s Hlive. unfold live in Hlive.
    destruct (sessions (mem sv) !! id) as [l|]; [|done]. simpl in Hlive.
    destruct (Forall_lookup_1 _ _ _ _ Hheap Hlive)
      as (_ & _ & prompt & rest & Hh & Hrest).
    split; [by rewrite Hh|eauto].
  - intros e g o cd. unfold live. simpl.
    rewrite lookup_insert_eq. simpl.
    by rewrite lookup_app_r, Nat.sub_diag.
  - intros evs id l s _ Hs.
    destruct (run_wf sv evs (reachable_wf sv Hreach)) as [_ Hg].
    destruct (Hg l s Hs) as (s' & Hs' & _ & _ & added & Hadded).
    by exists s', added.
Qed.

(** C7.  For a session in the store, [/history] answers 200 with the
    turns of the transcript whose role is not "system", in transcript
    order, each with its role and content, and leaves the store as it is;
    no turn of the answer has the role "system", however long the
    transcript.  In a reachable state the transcript is the system turn
    followed by exactly the turns of the answer. *)
Theorem history_excludes_system_turn (sv : server) (session_id : jsvalue)
    (l : loc) (s : session) :
  truthy session_id = true →
  sessions_get (mem sv) session_id = Some l →
  heap (mem sv) !! l = Some s →
  ∃ shown,
    voice_history (mem sv) session_id = (mem sv, success (HistoryOk shown)) ∧
    shown = filter (λ msg, role msg ≠ "system") (conversationHistory s) ∧
    Forall (λ msg, role msg ≠ "system") shown ∧
    (reachable sv →
     ∃ prompt, conversationHistory s = Message "system" prompt :: shown).
Proof.
  intros Ht Hget Hs. eexists.
  split; [by apply (voice_history_live _ _ l s)|].
  split; [done|]. split.
  - apply Forall_forall. by intros m [Hm _]%list_elem_of_filter.
  - intros [_ Hheap]%reachable_wf%proj1.
    destruct (Forall_lookup_1 _ _ _ _ Hheap Hs)
      as (_ & _ & prompt & rest & -> & Hrest).
    exists prompt. rewrite filter_cons_False by (simpl; auto).
    f_equal. symmetry. apply (filter_spoken_app [] rest Hrest).
Qed.

(** ** Deleted sessions *)

Lemma absent_evolves (st st' : state) (e : env) (id : string) :
  evolves st e st' → uuid e ≠ id →
  sessions st !! id = None → sessions st' !! id = None.
Proof.
  intros (_ & _ & Hids) Hne Hnone.
  destruct (sessions st' !! id) as [l|] eqn:Hl; [|done].
  destruct (Hids _ _ Hl) as [Hl'|[-> _]]; [congruence|done].
Qed.

Lemma absent_run (sv : server) (evs : list (env * event)) (id : string) :
  wf sv → Forall (λ x, uuid x.1 ≠ id) evs →
  sessions (mem sv) !! id = None →
  sessions (mem (run sv evs).1) !! id = None.
Proof.
  revert sv. induction evs as [|[e ev] evs IH]; intros sv Hwf Hevs Hnone;
    [done|].
  apply Forall_cons in Hevs as [He Hevs]. rewrite run_cons.
  destruct (step_wf sv e ev Hwf) as [Hwf1 Hev1].
  apply IH; [done|done|]. by apply absent_evolves with (mem sv) e.
Qed.

Lemma truthy_JStr (id : string) : id ≠ "" → truthy (JStr id) = true.
Proof. intros Hne. simpl. by apply negb_true_iff, String.eqb_neq. Qed.

(** C3.  Take a session in the store and delete it, by an accepted
    [/stop] or by a sweep that finds it expired.  From then on, as long as
    [uuidv4()] does not make the same id again, every start, process (with
    its audio file), history and stop on that id is answered 404 "session
    not found", changes nothing and calls no collaborator.  The answers do
    not depend on which of the two deleted the session. *)
Theorem deleted_session_not_found (sv sv' : server) (e : env) (id : string)
    (l : loc) (evs : list (env * event)) :
  reachable sv →
  id ≠ "" →
  sessions (mem sv) !! id = Some l →
  sv' = (step sv e (Arrive (PostStop (JStr id)))).1 ∨
  (sv' = (step sv e Tick).1 ∧ expired (mem sv) (now e) (id, l)) →
  Forall (λ x, uuid x.1 ≠ id) evs →
  let st := mem (run sv' evs).1 in
  sessions st !! id = None ∧
  ∀ e' rs buffer,
    handle st e' (PostStart (JStr id)) rs
      = Some (st, [], Response 404 (Failure "Session not found or expired")) ∧
    handle st e' (PostProcess (JStr id) (Some buffer)) rs
      = Some (st, [], Response 404 (Failure "Session not found or expired")) ∧
    handle st e' (PostHistory (JStr id)) rs
      = Some (st, [], Response 404 (Failure "Session not found")) ∧
    handle st e' (PostStop (JStr id)) rs
      = Some (st, [], Response 404 (Failure "Session not found")).
Proof.
  intros Hreach Hid Hl Hdel Hevs st.
  pose proof (reachable_wf sv Hreach) as Hwf.
  pose proof (truthy_JStr id Hid) as Ht.
  assert (wf sv' ∧ sessions (mem sv') !! id = None) as [Hwf' Hnone].
  { destruct Hdel as [->|[-> Hexp]].
    - split; [apply step_wf, Hwf|].
      simpl. unfold voice_stop. rewrite Ht. simpl. rewrite Hl. simpl.
      apply lookup_delete_eq.
    - split; [apply step_wf, Hwf|].
      simpl. apply map_lookup_filter_None. right. intros l' Hl' Hnot.
      apply Hnot. by simplify_eq. }
  assert (sessions st !! id = None) as Hgone by by apply absent_run.
  split; [done|]. intros e' rs buffer.
  unfold handle, serve, voice_start, voice_process, voice_history, voice_stop.
  rewrite Ht. simpl. rewrite Hgone. by rewrite !complete_failure.
Qed.

(** ** The sweeper *)

Lemma cleanup_lookup (st : state) (now : Z) (id : string) (l : loc)
    (s : session) :
  sessions st !! id = Some l → heap st !! l = Some s →
  sessions (cleanupOldSessions st now) !! id =
    if decide (now - lastActivity s > maxAge) then None else Some l.
Proof.
  intros Hl Hs. simpl. case_decide as Hidle.
  - apply map_lookup_filter_None. right. intros l' Hl' Hnot. simplify_eq.
    apply Hnot. unfold expired. simpl. by rewrite (deref_lookup _ _ _ Hs).
  - apply map_lookup_filter_Some. split; [done|].
    unfold expired. simpl. by rewrite (deref_lookup _ _ _ Hs).
Qed.

Lemma cleanup_absent (st : state) (now : Z) (id : string) :
  sessions st !! id = None →
  sessions (cleanupOldSessions st now) !! id = None.
Proof. intros Hnone. simpl. apply map_lookup_filter_None. by left. Qed.

Lemma heap_sweeps (t0 : Z) (n : nat) (st : state) :
  heap (sweeps t0 n st) = heap st.
Proof. induction n as [|n IH]; [done|]. simpl. exact IH. Qed.

Lemma sweeps_lookup (t0 : Z) (n : nat) (st : state) (id : string) (l : loc) :
  sessions (sweeps t0 n st) !! id = Some l → sessions st !! id = Some l.
Proof.
  induction n as [|n IH]; [done|]. simpl.
  intros [Hl _]%map_lookup_filter_Some. by apply IH.
Qed.

Lemma sweep_at_next (t0 : Z) (k : nat) :
  sweep_at t0 (S k) = sweep_at t0 k + sweepInterval.
Proof. unfold sweep_at. lia. Qed.

Lemma sweep_at_mono (t0 : Z) (k n : nat) :
  (k ≤ n)%nat → sweep_at t0 k ≤ sweep_at t0 n.
Proof. unfold sweep_at, sweepInterval. intros Hkn. nia. Qed.

Lemma unbound_evolves (st st' : state) (e : env) (l : loc) :
  evolves st e st' → (l < length (heap st))%nat →
  (∀ id, sessions st !! id ≠ Some l) → ∀ id, sessions st' !! id ≠ Some l.
Proof.
  intros (_ & _ & Hids) Hl Hunbound id Hid.
  destruct (Hids _ _ Hid) as [Hold|[_ ->]]; [by apply (Hunbound id)|lia].
Qed.

Lemma unbound_run (sv : server) (evs : list (env * event)) (l : loc) :
  wf sv → (l < length (heap (mem sv)))%nat →
  (∀ id, sessions (mem sv) !! id ≠ Some l) →
  ∀ id, sessions (mem (run sv evs).1) !! id ≠ Some l.
Proof.
  revert sv. induction evs as [|[e ev] evs IH]; intros sv Hwf Hl Hunbound;
    [done|].
  intros id. rewrite run_cons.
  destruct (step_wf sv e ev Hwf) as [Hwf1 Hev1].
  apply IH; [done| |by apply unbound_evolves with (mem sv) e].
  pose proof (grows_length _ _ (proj1 (proj2 Hev1))). lia.
Qed.

(** C4.  Take a session last active at [la] and a sweeper whose timer was
    armed at [t0] and fires every five minutes.  A sweep at an instant when
    the idle time [now - la] is at most thirty minutes keeps the session,
    and a sweep when it is more deletes it.  If nothing but the sweeper
    runs, some firing falls after the thirty minutes are exceeded and no
    later than five minutes past them, and from that firing on the session
    is absent; while after any firing at which the idle time has not yet
    exceeded thirty minutes the session is still there.  With any other
    requests in between: once a sweep finds the session, still last active
    at [la], idle for more than thirty minutes, the session is in the
    store under no id, then and ever after. *)
Theorem idle_session_swept (sv : server) (id : string) (l : loc) (s : session)
    (t0 : Z) :
  reachable sv →
  sessions (mem sv) !! id = Some l →
  heap (mem sv) !! l = Some s →
  t0 ≤ lastActivity s + maxAge →
  let st := mem sv in
  let la := lastActivity s in
  (∀ now, now - la ≤ 30 * 60 * 1000 →
     sessions (cleanupOldSessions st now) !! id = Some l) ∧
  (∀ now, now - la > 30 * 60 * 1000 →
     sessions (cleanupOldSessions st now) !! id = None) ∧
  (∃ k, la + 30 * 60 * 1000 < sweep_at t0 k ≤
          la + 30 * 60 * 1000 + 5 * 60 * 1000 ∧
        ∀ n, (k ≤ n)%nat → sessions (sweeps t0 n st) !! id = None) ∧
  (∀ n, sweep_at t0 n - la ≤ 30 * 60 * 1000 →
     sessions (sweeps t0 n st) !! id = Some l) ∧
  (∀ evs1 e evs2,
     lastActivity (deref (mem (run sv evs1).1) l) = la →
     now e - la > 30 * 60 * 1000 →
     ∀ id', sessions (mem (run sv (evs1 ++ (e, Tick) :: evs2)).1) !! id'
            ≠ Some l).
Proof.
  intros Hreach Hl Hs Ht0 st la.
  change (30 * 60 * 1000) with maxAge. change (5 * 60 * 1000) with sweepInterval.
  assert (∀ n, sessions (sweeps t0 n st) !! id = None →
               sessions (sweeps t0 (S n) st) !! id = None) as Hstay.
  { intros n Hn. by apply cleanup_absent. }
  assert (∀ n, sessions (sweeps t0 n st) !! id = Some l ∨
               sessions (sweeps t0 n st) !! id = None) as Hcases.
  { intros n. destruct (sessions (sweeps t0 n st) !! id) as [l'|] eqn:Hn;
      [|by right].
    left. apply sweeps_lookup in Hn. subst st. congruence. }
  assert (∀ n, sweep_at t0 n > la + maxAge → (0 < n)%nat →
               sessions (sweeps t0 n st) !! id = None) as Hswept.
  { intros [|n] Hlate Hpos; [lia|].
    destruct (Hcases n) as [Hn|Hn]; [|by apply Hstay].
    simpl sweeps. rewrite (cleanup_lookup _ _ _ l s Hn);
      [|by rewrite heap_sweeps].
    rewrite decide_True; [done|]. fold la. lia. }
  split; [|split; [|split; [|split]]].
  - intros now Hnow. rewrite (cleanup_lookup _ _ _ l s Hl Hs).
    rewrite decide_False; [done|]. fold la. lia.
  - intros now Hnow. rewrite (cleanup_lookup _ _ _ l s Hl Hs).
    rewrite decide_True; [done|]. fold la. lia.
  - set (q := (la + maxAge - t0) / sweepInterval).
    assert (0 ≤ q) as Hq by (apply Z.div_pos; unfold sweepInterval; lia).
    assert (sweepInterval * q ≤ la + maxAge - t0 <
            sweepInterval * q + sweepInterval) as Hdiv.
    { pose proof (Z.mod_pos_bound (la + maxAge - t0) sweepInterval) as Hr.
      pose proof (Z.div_mod (la + maxAge - t0) sweepInterval) as Hqr.
      unfold sweepInterval in *. fold q in Hqr. lia. }
    exists (Z.to_nat (q + 1)).
    assert (sweep_at t0 (Z.to_nat (q + 1)) = t0 + (q + 1) * sweepInterval)
      as Hk by (unfold sweep_at; lia).
    split; [rewrite Hk; lia|].
    intros n Hn. apply Hswept; [|lia].
    pose proof (sweep_at_mono t0 _ _ Hn). lia.
  - induction n as [|n IH]; intros Hn; [done|].
    rewrite sweep_at_next in Hn.
    simpl sweeps. rewrite (cleanup_lookup _ _ _ l s);
      [| apply IH; unfold sweepInterval in *; lia | by rewrite heap_sweeps].
    rewrite decide_False; [done|]. rewrite sweep_at_next. fold la. lia.
  - intros evs1 e evs2 Hla Hidle id'.
    rewrite run_app, run_cons.
    destruct (run_wf sv evs1 (reachable_wf sv Hreach)) as [Hwf1 Hg1].
    set (sv1 := (run sv evs1).1) in *.
    assert (l < length (heap (mem sv1)))%nat as Hl1.
    { destruct (Hg1 l s Hs) as (s1 & Hs1 & _). by apply lookup_lt_Some in Hs1. }
    apply unbound_run; [apply step_wf, Hwf1|done|].
    intros id1. simpl. intros [_ Hkept]%map_lookup_filter_Some.
    apply Hkept. unfold expired. simpl. rewrite Hla. exact Hidle.
Qed.

(** ** What refreshes [lastActivity] *)

Lemma resume_keeps_lastActivity (st : state) (e : env) (k : continuation)
    (r : settled) (st' : state) (o : outcome) (l : loc) (s : session) :
  heap st !! l = Some s →
  resume st e k r = Some (st', o) →
  lastActivity (deref st' l) = lastActivity s.
Proof.
  intros Hs Hres.
  assert (∀ m, lastActivity (deref (update st l (push m)) l) = lastActivity s)
    as Hsame by (intros m; by erewrite deref_update_eq).
  assert (∀ l' m, lastActivity (deref (update st l' (push m)) l)
                  = lastActivity s) as Hpush.
  { intros l' m. destruct (decide (l' = l)) as [->|Hne]; [done|].
    unfold deref. by rewrite lookup_update_ne, Hs. }
  assert (∀ g oid cd, lastActivity (deref (init_create st e g oid cd).1 l)
                      = lastActivity s) as Hcreate.
  { intros g oid cd. unfold deref. simpl.
    rewrite lookup_app_l, Hs; [done|]. by apply lookup_lt_Some in Hs. }
  destruct k as [g oid|g oid|greeting|l'|l' t|t a];
    destruct r as [[[cd|]|text|audio]|m]; simplify_eq/=;
    first [ apply Hpush
          | by rewrite (deref_lookup _ _ _ Hs)
          | unfold init_create in Hres; simplify_eq; apply Hcreate ].
Qed.

(** C5, as the code has it.  On a live session, [/start] sets
    [lastActivity] to the time of the request, and so does a [/process]
    that passes validation; the segments that run after an [await] leave
    it alone, and [/history] changes nothing at all, so reading the
    history does not refresh the session.  Whether a sweep at time [t]
    deletes the session depends on [t] and [lastActivity] only. *)
Theorem start_and_process_refresh_activity (st : state) (e : env)
    (session_id : jsvalue) (l : loc) (s : session) :
  truthy session_id = true →
  sessions_get st session_id = Some l →
  heap st !! l = Some s →
  lastActivity (deref (voice_start st e session_id).1 l) = now e ∧
  (active s = true →
   ∀ buffer,
     lastActivity (deref (voice_process st e session_id (Some buffer)).1 l)
       = now e) ∧
  (∀ e' k r st' o,
     resume st e' k r = Some (st', o) →
     lastActivity (deref st' l) = lastActivity s) ∧
  (∃ shown, voice_history st session_id = (st, success (HistoryOk shown))) ∧
  (∀ t id, expired st t (id, l) ↔ t - lastActivity s > 30 * 60 * 1000).
Proof.
  intros Ht Hget Hs. split; [|split; [|split; [|split]]].
  - destruct (voice_start_live st e session_id l s Ht Hget Hs)
      as (st1 & -> & _ & _ & _ & Hl1).
    simpl. by rewrite (deref_lookup _ _ _ Hl1).
  - intros Ha buffer.
    rewrite (voice_process_live _ _ _ _ _ _ Ht Hget Hs Ha). simpl.
    by erewrite deref_update_eq.
  - intros e' k r st' o. by apply resume_keeps_lastActivity.
  - eexists. by apply (voice_history_live _ _ l s).
  - intros t id. unfold expired. simpl. by rewrite (deref_lookup _ _ _ Hs).
Qed.

(** ** The gender of a session *)







(** ** More about the handlers *)

Ltac settle rs e r :=
  destruct rs as [|[e r] rs]; [done|];
  destruct r as [[[?|]|?|?]|?]; cbn in *; try done.

(** X4.  [/init] answers without any lookup in three cases: 500
    when the request has no parsed body, 400 when [gender] or [osce_id] is
    missing, and 500 when one of the two cannot be converted to a string
    for the log line.  Otherwise it looks the case up among the OSCEs and,
    only when that finds nothing, among the virtual patient simulations.
    It answers 200 exactly when it has made the session from the row the
    last lookup found; in every other outcome (400, 500, 404 after two
    empty lookups) the store is as it was. *)
Theorem init_outcomes (st : state) (e : env) (g o : jsvalue)
    (rs : list (env * settled)) (st' : state) (cs : list call)
    (resp : response) :
  handle st e (PostInit g o) rs = Some (st', cs, resp) →
  (cs = [] ∨ cs = [OscesFindOne o] ∨
   cs = [OscesFindOne o; VirtualPatientSimulationsFindOne o]) ∧
  (cs = [] ↔
   truthy g = false ∨ truthy o = false ∨
   stringifiable o = false ∨ stringifiable g = false) ∧
  (truthy g = false ∨ truthy o = false →
   resp = Response 400
            (Failure "Missing required parameters: gender and osce_id")) ∧
  (truthy g = true → truthy o = true →
   stringifiable o = false ∨ stringifiable g = false →
   resp = Response 500 (Failure "Cannot convert object to primitive value")) ∧
  (length cs = 2%nat → ∃ e1, rs !! 0%nat = Some (e1, Fulfilled (Row None))) ∧
  (status resp = 200%nat →
   ∃ e1 case_description,
     rs !! pred (length cs) = Some (e1, Fulfilled (Row (Some case_description))) ∧
     resp = Response 200 (InitOk (uuid e1)) ∧
     st' = (init_create st e1 g o case_description).1) ∧
  (status resp ≠ 200%nat → st' = st) ∧
  (status resp = 404%nat →
   resp = Response 404 (Failure "OSCE case not found") ∧
   ∃ e1 e2, rs !! 0%nat = Some (e1, Fulfilled (Row None)) ∧
            rs !! 1%nat = Some (e2, Fulfilled (Row None))) ∧
  (∀ rs',
     handle st e (Bodyless Init) rs' =
       Some (st, [],
             Response 500
               (Failure "Cannot destructure property 'gender' of 'req.body' as it is undefined."))).
Proof.
  assert (∀ rs',
     handle st e (Bodyless Init) rs' =
       Some (st, [],
             Response 500
               (Failure "Cannot destructure property 'gender' of 'req.body' as it is undefined.")))
    as Hbodyless by (intros rs'; apply complete_failure).
  revert Hbodyless. generalize (handle st e (Bodyless Init)).
  intros bodyless Hbodyless.
  unfold handle, serve, voice_init.
  destruct (truthy g) eqn:Hg, (truthy o) eqn:Ho;
    destruct (stringifiable o) eqn:Hso, (stringifiable g) eqn:Hsg;
    cbn [negb orb andb];
    try (rewrite complete_failure; intros [= <- <- <-];
         repeat split; intros; simplify_eq/=; eauto; naive_solver).
  intros Hrun. settle rs e1 r1.
  - rewrite complete_success in Hrun. simplify_eq/=.
    repeat split; intros; simplify_eq/=; eauto 6.
    all: naive_solver.
  - settle rs e2 r2.
    + rewrite complete_success in Hrun. simplify_eq/=.
      repeat split; intros; simplify_eq/=; eauto 6. all: naive_solver.
    + rewrite complete_failure in Hrun. simplify_eq/=.
      repeat split; intros; simplify_eq/=; eauto 6. all: naive_solver.
    + rewrite complete_failure in Hrun. simplify_eq/=.
      repeat split; intros; simplify_eq/=; eauto 6. all: naive_solver.
  - rewrite complete_failure in Hrun. simplify_eq/=.
    repeat split; intros; simplify_eq/=; eauto 6. all: naive_solver.
Qed.

(** X5.  The session [/init] makes is bound under the id
    [uuidv4()] returned, whatever that id denoted before, and is not
    active: a process request on it is refused until it is started, and
    its history is empty.  No other id and no existing session object is
    touched, and the store has one more session when the id is new. *)
Theorem init_binds_only_the_new_id (st : state) (e : env) (g o : jsvalue)
    (case_description : option string) :
  let st' := (init_create st e g o case_description).1 in
  live st' (uuid e) =
    Some (Session g o [Message "system" (getPatientPrompt case_description)]
                  false (now e)) ∧
  (∀ id, id ≠ uuid e → sessions st' !! id = sessions st !! id) ∧
  (∀ l s, heap st !! l = Some s → heap st' !! l = Some s) ∧
  (sessions st !! uuid e = None →
   size (sessions st') = S (size (sessions st))) ∧
  (uuid e ≠ "" →
   ∀ e' buffer rs,
     handle st' e' (PostProcess (JStr (uuid e)) (Some buffer)) rs =
       Some (st', [],
             Response 400 (Failure "Session not active. Call /start first.")) ∧
     handle st' e' (PostHistory (JStr (uuid e))) rs =
       Some (st', [], Response 200 (HistoryOk []))).
Proof.
  intros st'.
  assert (sessions st' !! uuid e = Some (length (heap st))) as Hnew
    by apply lookup_insert_eq.
  assert (heap st' !! length (heap st) =
          Some (Session g o
                  [Message "system" (getPatientPrompt case_description)]
                  false (now e))) as Hobj.
  { subst st'. simpl. by rewrite lookup_app_r, Nat.sub_diag. }
  split; [|split; [|split; [|split]]].
  - unfold live. rewrite Hnew. exact Hobj.
  - intros id Hid. subst st'. simpl. by rewrite lookup_insert_ne.
  - intros l s Hs. subst st'. simpl.
    rewrite lookup_app_l; [done|]. by apply lookup_lt_Some in Hs.
  - intros Hfresh. subst st'. simpl. by apply map_size_insert_None.
  - intros Hid e' buffer rs. split.
    + unfold handle, serve, voice_process.
      rewrite (truthy_JStr _ Hid). cbn [negb sessions_get]. rewrite Hnew.
      rewrite (deref_lookup _ _ _ Hobj). cbn [active negb].
      apply complete_failure.
    + unfold handle, serve.
      rewrite (voice_history_live st' (JStr (uuid e)) _ _
                 (truthy_JStr _ Hid) Hnew Hobj).
      apply complete_success.
Qed.

(** X6.  A start whose speech synthesis throws answers 500 with
    the error message, but what it did before the call stays: the session
    is active and the greeting is in the transcript, so a process request
    is then accepted, and a second start would add a second greeting. *)
Theorem failed_start_still_activates (st : state) (e e1 : env)
    (session_id : jsvalue) (l : loc) (s : session) (m : string)
    (rs : list (env * settled)) :
  truthy session_id = true →
  sessions_get st session_id = Some l →
  heap st !! l = Some s →
  ∃ st',
    handle st e (PostStart session_id) ((e1, Rejected m) :: rs) =
      Some (st', [GenerateSpeech initialGreeting (gender s)],
            Response 500 (Failure m)) ∧
    heap st' !! l =
      Some (Session (gender s) (osce_id s)
              (conversationHistory s ++ [Message "assistant" initialGreeting])
              true (now e)) ∧
    ∀ e2 buffer,
      (voice_process st' e2 session_id (Some buffer)).2 =
        Await (TranscribeAudio buffer) (ProcessAfterTranscribe l).
Proof.
  intros Ht Hget Hs.
  destruct (voice_start_live st e session_id l s Ht Hget Hs)
    as (st1 & Hstart & Hsess & _ & _ & Hl1).
  exists st1. split; [|split; [done|]].
  - unfold handle, serve. rewrite Hstart. simpl. by rewrite complete_failure.
  - intros e2 buffer.
    assert (sessions_get st1 session_id = Some l) as Hget1.
    { destruct session_id; try done. simpl in *. by rewrite Hsess. }
    by rewrite (voice_process_live st1 e2 _ buffer l _ Ht Hget1 Hl1 eq_refl).
Qed.

(** X7.  [/stop] takes a session in any state, started or not.
    It removes the one id from the store and nothing else: every other id
    denotes what it did, no session object is changed, and no collaborator
    is called.  A second stop on the id is answered 404. *)
Theorem stop_removes_only_that_session (st : state) (e e' : env)
    (session_id : jsvalue) (l : loc) (rs rs' : list (env * settled)) :
  truthy session_id = true →
  sessions_get st session_id = Some l →
  ∃ st',
    handle st e (PostStop session_id) rs =
      Some (st', [], Response 200 StopOk) ∧
    heap st' = heap st ∧
    sessions_get st' session_id = None ∧
    (∀ id, JStr id ≠ session_id → sessions st' !! id = sessions st !! id) ∧
    size (sessions st') = pred (size (sessions st)) ∧
    handle st' e' (PostStop session_id) rs' =
      Some (st', [], Response 404 (Failure "Session not found")).
Proof.
  intros Ht Hget.
  destruct (sessions_get_Some _ _ _ Hget) as (id & -> & Hid).
  exists (sessions_delete st (JStr id)).
  assert (sessions_get (sessions_delete st (JStr id)) (JStr id) = None)
    as Hgone by apply lookup_delete_eq.
  split; [|split; [done|split; [done|split; [|split]]]].
  - unfold handle, serve, voice_stop. rewrite Ht, Hget. apply complete_success.
  - intros id' Hne. simpl. apply lookup_delete_ne. congruence.
  - simpl. rewrite map_size_delete, Hid. done.
  - unfold handle, serve, voice_stop. rewrite Ht, Hgone.
    apply complete_failure.
Qed.

(** ** Handlers in flight *)

Ltac through_updates := repeat apply lookup_update_eq; eassumption.

Lemma step_transcribed (sv : server) (e : env) (h : nat) (l : loc)
    (s : session) (t : string) :
  pending sv !! h = Some (ProcessAfterTranscribe l) →
  heap (mem sv) !! l = Some s →
  step sv e (Settle h (Fulfilled (Text t))) =
    (Server (update (mem sv) l (push (Message "user" t)))
            (<[h := ProcessAfterChat l t]> (pending sv)) (next_handler sv),
     [Invoke h (GetChatCompletion
                  (conversationHistory s ++ [Message "user" t]))]).
Proof.
  intros Hk Hs. cbn [step]. rewrite Hk. cbn [resume].
  by rewrite (process_after_transcribe_appends _ _ _ _ Hs).
Qed.

Lemma step_completed (sv : server) (e : env) (h : nat) (l : loc)
    (s : session) (t r : string) :
  pending sv !! h = Some (ProcessAfterChat l t) →
  heap (mem sv) !! l = Some s →
  step sv e (Settle h (Fulfilled (Text r))) =
    (Server (update (mem sv) l (push (Message "assistant" r)))
            (<[h := ProcessAfterSpeech t r]> (pending sv)) (next_handler sv),
     [Invoke h (GenerateSpeech r (gender s))]).
Proof.
  intros Hk Hs. cbn [step]. rewrite Hk. cbn [resume].
  by rewrite (process_after_chat_appends _ _ _ _ _ Hs).
Qed.

Lemma step_spoken (sv : server) (e : env) (h : nat) (t r : string)
    (audio : Buffer) :
  pending sv !! h = Some (ProcessAfterSpeech t r) →
  step sv e (Settle h (Fulfilled (Audio audio))) =
    (Server (mem sv) (delete h (pending sv)) (next_handler sv),
     [Reply h (Response 200 (ProcessOk t r (base64 audio)))]).
Proof. intros Hk. cbn [step]. by rewrite Hk. Qed.

(** X8.  A process handler that is waiting for its transcription
    does not look the session up again.  Whether or not the session is
    still in the store (it may have been stopped or swept meanwhile), the
    handler goes on to the completion and the synthesis, answers 200, and
    pushes its two turns on the session object it holds; it never puts the
    session back in the store. *)
Theorem process_in_flight_outlives_session (sv : server) (h : nat) (l : loc)
    (s : session) (e1 e2 e3 : env) (t r : string) (audio : Buffer) :
  pending sv !! h = Some (ProcessAfterTranscribe l) →
  heap (mem sv) !! l = Some s →
  let settles :=
    [ (e1, Settle h (Fulfilled (Text t)));
      (e2, Settle h (Fulfilled (Text r)));
      (e3, Settle h (Fulfilled (Audio audio))) ] in
  (run sv settles).2 =
    [ Invoke h (GetChatCompletion
                  (conversationHistory s ++ [Message "user" t]));
      Invoke h (GenerateSpeech r (gender s));
      Reply h (Response 200 (ProcessOk t r (base64 audio))) ] ∧
  sessions (mem (run sv settles).1) = sessions (mem sv) ∧
  conversationHistory (deref (mem (run sv settles).1) l) =
    conversationHistory s ++ [Message "user" t; Message "assistant" r].
Proof.
  intros Hk Hs settles. subst settles.
  rewrite !run_cons_actions, !run_cons.
  rewrite (step_transcribed sv e1 h l s t Hk Hs). cbn [fst snd].
  erewrite (step_completed _ e2 h l _ t r);
    [|apply lookup_insert_eq|by apply lookup_update_eq].
  cbn [fst snd].
  rewrite (step_spoken _ e3 h t r audio) by apply lookup_insert_eq.
  cbn [fst snd run mem]. split; [done|]. split; [done|].
  erewrite deref_update_eq by (by apply lookup_update_eq).
  simpl. by rewrite <- app_assoc.
Qed.

(** X9.  Two process requests in flight on one session are not
    kept apart.  If both have passed validation and their transcriptions
    settle before their completions do, the transcript gets the two user
    turns and then the two assistant turns; the completion of the second
    request is asked with the question of the first in the transcript, and
    the answer to the first lands after the question of the second. *)
Theorem processes_in_flight_interleave (sv : server) (h1 h2 : nat) (l : loc)
    (s : session) (e1 e2 e3 e4 : env) (t1 t2 r1 r2 : string) :
  h1 ≠ h2 →
  pending sv !! h1 = Some (ProcessAfterTranscribe l) →
  pending sv !! h2 = Some (ProcessAfterTranscribe l) →
  heap (mem sv) !! l = Some s →
  let settles :=
    [ (e1, Settle h1 (Fulfilled (Text t1)));
      (e2, Settle h2 (Fulfilled (Text t2)));
      (e3, Settle h1 (Fulfilled (Text r1)));
      (e4, Settle h2 (Fulfilled (Text r2))) ] in
  (run sv settles).2 =
    [ Invoke h1 (GetChatCompletion
                   (conversationHistory s ++ [Message "user" t1]));
      Invoke h2 (GetChatCompletion
                   (conversationHistory s ++
                      [Message "user" t1; Message "user" t2]));
      Invoke h1 (GenerateSpeech r1 (gender s));
      Invoke h2 (GenerateSpeech r2 (gender s)) ] ∧
  conversationHistory (deref (mem (run sv settles).1) l) =
    conversationHistory s ++
      [ Message "user" t1; Message "user" t2;
        Message "assistant" r1; Message "assistant" r2 ].
Proof.
  intros Hne Hk1 Hk2 Hs settles. subst settles.
  rewrite !run_cons_actions, !run_cons.
  rewrite (step_transcribed sv e1 h1 l s t1 Hk1 Hs). cbn [fst snd].
  erewrite (step_transcribed _ e2 h2 l _ t2);
    [|cbn [pending]; by rewrite lookup_insert_ne|through_updates].
  cbn [fst snd].
  erewrite (step_completed _ e3 h1 l _ t1 r1);
    [|cbn [pending]; rewrite lookup_insert_ne by done; apply lookup_insert_eq
     |through_updates].
  cbn [fst snd].
  erewrite (step_completed _ e4 h2 l _ t2 r2);
    [|cbn [pending]; rewrite lookup_insert_ne by done; apply lookup_insert_eq
     |through_updates].
  cbn [fst snd run mem]. split.
  - simpl. by rewrite <- !app_assoc.
  - erewrite deref_lookup by through_updates.
    simpl. by rewrite <- !app_assoc.
Qed.

(** ** Once active *)

Lemma stays_active_refl (st : state) : stays_active st st.
Proof. intros l s Hs. eauto. Qed.

Lemma stays_active_same_heap (st st' : state) :
  heap st' = heap st → stays_active st st'.
Proof. intros Hh l s Hs. rewrite Hh. eauto. Qed.

Lemma stays_active_trans (st1 st2 st3 : state) :
  stays_active st1 st2 → stays_active st2 st3 → stays_active st1 st3.
Proof.
  intros H12 H23 l s1 Hs1.
  destruct (H12 l s1 Hs1) as (s2 & Hs2 & Ha12).
  destruct (H23 l s2 Hs2) as (s3 & Hs3 & Ha23). eauto.
Qed.

Lemma stays_active_update (st : state) (l : loc) (f : session → session) :
  (∀ s, active s = true → active (f s) = true) →
  stays_active st (update st l f).
Proof.
  intros Hf l' s Hs. rewrite lookup_update. case_decide as Hl.
  - subst l'. rewrite Hs. simpl. eauto.
  - eauto.
Qed.

Lemma stays_active_create (st : state) (e : env) (g o : jsvalue) cd :
  stays_active st (init_create st e g o cd).1.
Proof.
  intros l s Hs. exists s. split; [|done]. simpl.
  rewrite lookup_app_l; [done|]. by apply lookup_lt_Some in Hs.
Qed.

Ltac still_active :=
  repeat first
    [ apply stays_active_refl
    | apply stays_active_create
    | by apply stays_active_same_heap
    | eapply stays_active_trans;
        [| apply stays_active_update; by intros [] ] ].

Lemma serve_stays_active (st : state) (e : env) (rq : request) :
  stays_active st (serve st e rq).1.
Proof.
  destruct rq as [g o|sid|sid file|sid|sid|path]; simpl; [..|still_active].
  - unfold voice_init. destruct (_ || _); [still_active|].
    destruct (negb _); still_active.
  - unfold voice_start. destruct (negb _); [still_active|].
    destruct (sessions_get st sid); simpl; still_active.
  - unfold voice_process. destruct (negb _); [still_active|].
    destruct file; [|still_active].
    destruct (sessions_get st sid); [|still_active].
    destruct (negb _); simpl; still_active.
  - unfold voice_stop. destruct (negb _); [still_active|].
    destruct (sessions_get st sid); simpl; [|still_active].
    apply stays_active_same_heap. by destruct sid.
  - unfold voice_history. destruct (negb _); [still_active|].
    destruct (sessions_get st sid); simpl; still_active.
Qed.

Lemma resume_stays_active (st : state) (e : env) (k : continuation)
    (r : settled) (so : state * outcome) :
  resume st e k r = Some so → stays_active st so.1.
Proof.
  destruct k as [g o|g o|greeting|l|l t|t a];
    destruct r as [[[cd|]|text|audio]|m]; simpl; intros [= <-]; simpl;
    still_active.
Qed.

Lemma step_stays_active (sv : server) (e : env) (ev : event) :
  stays_active (mem sv) (mem (step sv e ev).1).
Proof.
  destruct ev as [rq|h r|]; cbn [step].
  - pose proof (serve_stays_active (mem sv) e rq) as Hserve.
    unfold finish. by destruct (serve (mem sv) e rq) as [st' [resp|c k]].
  - destruct (pending sv !! h) as [k|]; [|apply stays_active_refl].
    destruct (resume (mem sv) e k r) as [so|] eqn:Hres;
      [|apply stays_active_refl].
    apply resume_stays_active in Hres.
    unfold finish. by destruct so as [st' [resp|c k']].
  - by apply stays_active_same_heap.
Qed.

Lemma run_stays_active (sv : server) (evs : list (env * event)) :
  stays_active (mem sv) (mem (run sv evs).1).
Proof.
  revert sv. induction evs as [|[e ev] evs IH]; intros sv;
    [apply stays_active_refl|].
  rewrite run_cons. eapply stays_active_trans; [apply step_stays_active|].
  apply IH.
Qed.

(** X10.  No handler and no sweep ever sets [active] back to
    false.  A session that is active stays active through every later
    event, in any interleaving; so as long as its id is in the store, a
    process request with an audio file passes validation without another
    start. *)
Theorem active_is_never_reset (sv : server) (evs : list (env * event))
    (l : loc) (s : session) :
  heap (mem sv) !! l = Some s →
  active s = true →
  let st' := mem (run sv evs).1 in
  (∃ s', heap st' !! l = Some s' ∧ active s' = true) ∧
  ∀ session_id e buffer,
    truthy session_id = true →
    sessions_get st' session_id = Some l →
    (voice_process st' e session_id (Some buffer)).2 =
      Await (TranscribeAudio buffer) (ProcessAfterTranscribe l).
Proof.
  intros Hs Ha st'.
  destruct (run_stays_active sv evs l s Hs) as (s' & Hs' & Ha').
  split; [eauto|]. intros session_id e buffer Ht Hget.
  by rewrite (voice_process_live st' e _ buffer l s' Ht Hget Hs' (Ha' Ha)).
Qed.

(** ** One session at a time *)

Lemma serve_frame (st : state) (e : env) (rq : request) :
  (∀ l', target st rq ≠ Some l' → heap (serve st e rq).1 !! l' = heap st !! l') ∧
  (∀ c k, (serve st e rq).2 = Await c k →
          held k = None ∨ held k = target st rq).
Proof.
  destruct rq as [g o|sid|sid file|sid|sid|path]; simpl; [..|done].
  - unfold voice_init. destruct (_ || _); [done|].
    destruct (negb _); simpl; split; try done.
    intros c k [= <- <-]. by left.
  - unfold voice_start. destruct (negb _); [done|].
    destruct (sessions_get st sid) as [l|]; simpl; [|done]. split.
    + intros l' Hne. rewrite !list_lookup_alter_ne; congruence.
    + intros c k [= <- <-]. by left.
  - unfold voice_process. destruct (negb _); [done|].
    destruct file as [buffer|]; [|done].
    destruct (sessions_get st sid) as [l|]; [|done].
    destruct (negb _); simpl; [done|]. split.
    + intros l' Hne. rewrite list_lookup_alter_ne; congruence.
    + intros c k [= <- <-]. by right.
  - unfold voice_stop. destruct (negb _); [done|].
    destruct (sessions_get st sid) as [l|]; simpl; [|done].
    split; [|done]. intros l' _. by destruct sid.
  - unfold voice_history. destruct (negb _); [done|].
    by destruct (sessions_get st sid) as [l|].
Qed.

Lemma resume_frame (st : state) (e : env) (k : continuation) (r : settled)
    (st' : state) (o : outcome) :
  resume st e k r = Some (st', o) →
  (length (heap st) ≤ length (heap st'))%nat ∧
  (∀ l', (l' < length (heap st))%nat → held k ≠ Some l' →
         heap st' !! l' = heap st !! l') ∧
  (∀ c k', o = Await c k' → held k' = None ∨ held k' = held k).
Proof.
  destruct k as [g oid|g oid|greeting|l|l t|t a];
    destruct r as [[[cd|]|text|audio]|m]; simpl; intros [= <- <-];
    (split; [simpl; rewrite ?length_app, ?length_alter; simpl; lia|]);
    (split; [|try done; intros c k' [= <- <-]; auto]);
    intros l' Hl' Hne; simpl;
    first [ done
          | by rewrite lookup_app_l
          | rewrite list_lookup_alter_ne; congruence ].
Qed.

Lemma complete_frame (rs : list (env * settled)) :
  ∀ st o st' cs resp held_by,
    complete rs st o = Some (st', cs, resp) →
    (∀ c k, o = Await c k → held k = None ∨ held k = held_by) →
    ∀ l', (l' < length (heap st))%nat → held_by ≠ Some l' →
          heap st' !! l' = heap st !! l'.
Proof.
  induction rs as [|[e r] rs IH]; intros st o st' cs resp held_by Hrun Hheld
    l' Hl' Hne.
  - destruct o as [resp'|c k]; [|done]. by simplify_eq/=.
  - destruct o as [resp'|c k]; [by simplify_eq/=|].
    apply complete_Await in Hrun
      as (e1 & r1 & rs1 & st1 & o1 & cs1 & [= <- <- <-] & Hres & Hrun & ->).
    destruct (resume_frame _ _ _ _ _ _ Hres) as (Hlen & Hframe & Hnext).
    rewrite (IH st1 o1 st' cs1 resp held_by Hrun); [| |lia|done].
    + apply Hframe; [done|].
      destruct (Hheld c k eq_refl) as [Hk|Hk]; by rewrite Hk.
    + intros c' k' Ho1. destruct (Hnext c' k' Ho1) as [Hk'|Hk']; rewrite Hk'; [by left|].
      by apply (Hheld c k).
Qed.

(** X11.  A request changes no session object but the one it
    names: whatever its promises settle to, every other object that was on
    the heap is the same when the handler has answered.  An init, and a
    request that names no session of the store, change none. *)
Theorem handler_changes_only_its_session (st : state) (e : env)
    (rq : request) (rs : list (env * settled)) (st' : state)
    (cs : list call) (resp : response) (l' : loc) (s' : session) :
  handle st e rq rs = Some (st', cs, resp) →
  heap st !! l' = Some s' →
  target st rq ≠ Some l' →
  heap st' !! l' = Some s'.
Proof.
  unfold handle. destruct (serve_frame st e rq) as [Hframe Hheld].
  destruct (serve st e rq) as [st0 o] eqn:Hserve. simpl in *.
  intros Hrun Hs' Hne.
  rewrite (complete_frame rs st0 o st' cs resp (target st rq) Hrun Hheld);
    [by rewrite Hframe| |done].
  apply (lookup_lt_Some _ _ s'). by rewrite Hframe.
Qed.

(** ** The sweep as a whole *)

Lemma cleanup_lookup_Some (st : state) (now : Z) (id : string) (l : loc) :
  sessions (cleanupOldSessions st now) !! id = Some l ↔
  sessions st !! id = Some l ∧ now - lastActivity (deref st l) ≤ maxAge.
Proof.
  simpl. rewrite map_lookup_filter_Some. unfold expired. simpl. split.
  - intros [Hl Hfresh]. split; [done|]. lia.
  - intros [Hl Hfresh]. split; [done|]. lia.
Qed.

Lemma cleanup_cleanup (st : state) (now later : Z) :
  now ≤ later →
  cleanupOldSessions (cleanupOldSessions st now) later
    = cleanupOldSessions st later.
Proof.
  intros Hlater. unfold cleanupOldSessions at 1 3. f_equal.
  apply map_eq. intros id. apply option_eq. intros l.
  rewrite map_lookup_filter_Some, cleanup_lookup_Some.
  change (sessions (cleanupOldSessions st later) !! id = Some l)
    with (filter (λ entry, ¬ expired st later entry) (sessions st) !! id
          = Some l).
  rewrite map_lookup_filter_Some. unfold expired, deref. simpl. split.
  - intros [[Hl _] Hfresh]. done.
  - intros [Hl Hfresh]. split; [|done]. split; [done|]. lia.
Qed.

(** X12.  After a sweep at [now] the store holds exactly the
    sessions it held whose idle time [now - lastActivity] is at most
    thirty minutes, under the same ids; no session object is changed.
    Sweeping again at the same instant changes nothing more, and a sweep
    followed by a later sweep leaves what the later sweep alone leaves. *)
Theorem sweep_keeps_exactly_the_fresh (st : state) (now : Z) :
  (∀ id l,
     sessions (cleanupOldSessions st now) !! id = Some l ↔
     sessions st !! id = Some l ∧
     now - lastActivity (deref st l) ≤ 30 * 60 * 1000) ∧
  heap (cleanupOldSessions st now) = heap st ∧
  (size (sessions (cleanupOldSessions st now)) ≤ size (sessions st))%nat ∧
  cleanupOldSessions (cleanupOldSessions st now) now
    = cleanupOldSessions st now ∧
  (∀ later, now ≤ later →
     cleanupOldSessions (cleanupOldSessions st now) later
       = cleanupOldSessions st later).
Proof.
  split; [|split; [|split; [|split]]].
  - intros id l. apply cleanup_lookup_Some.
  - done.
  - simpl. apply map_subseteq_size, map_filter_subseteq.
  - by apply cleanup_cleanup.
  - intros later. apply cleanup_cleanup.
Qed.

(** ** What the answers say *)

Lemma serve_responds (st : state) (e : env) (rq : request) (resp : response) :
  (serve st e rq).2 = Respond resp →
  (status resp = 200%nat ∧ ∀ m, body resp ≠ Failure m) ∨
  ((status resp = 400%nat ∨ status resp = 404%nat) ∧
   ∃ m, body resp = Failure m) ∨
  (thrown rq resp ∧ (serve st e rq).1 = st).
Proof.
  destruct rq as [g o|sid|sid file|sid|sid|path]; simpl.
  - unfold voice_init.
    destruct (truthy g) eqn:Hg, (truthy o) eqn:Ho; simpl;
      try (intros [= <-]; eauto 6).
    destruct (stringifiable o) eqn:Hso, (stringifiable g) eqn:Hsg; simpl;
      intros [= <-]; right; right; (split; [right|done]);
      exists g, o; eauto 6.
  - unfold voice_start. destruct (negb _); [intros [= <-]; eauto 6|].
    destruct (sessions_get st sid); simpl; intros [= <-]; eauto 6.
  - unfold voice_process. destruct (negb _); [intros [= <-]; eauto 6|].
    destruct file; [|intros [= <-]; eauto 6].
    destruct (sessions_get st sid); [|intros [= <-]; eauto 6].
    destruct (negb _); simpl; intros [= <-]; eauto 6.
  - unfold voice_stop. destruct (negb _); [intros [= <-]; eauto 6|].
    destruct (sessions_get st sid); simpl; intros [= <-]; eauto 6.
  - unfold voice_history. destruct (negb _); [intros [= <-]; eauto 6|].
    destruct (sessions_get st sid); simpl; intros [= <-]; eauto 6.
  - intros [= <-]. right; right. split; [left|done]. by exists path.
Qed.

Lemma thrown_500 (rq : request) (resp : response) :
  thrown rq resp → status resp = 500%nat ∧ ∃ m, body resp = Failure m.
Proof.
  intros [(path & _ & ->)|(g & o & _ & _ & _ & _ & ->)]; eauto.
Qed.

Lemma resume_settles (st : state) (e : env) (k : continuation) (r : settled)
    (st' : state) (o : outcome) :
  resume st e k r = Some (st', o) →
  match r with
  | Rejected m => st' = st ∧ o = Respond (Response 500 (Failure m))
  | Fulfilled _ =>
      ∀ resp, o = Respond resp →
        (status resp = 200%nat ∧ ∀ m, body resp ≠ Failure m) ∨
        (status resp = 404%nat ∧ ∃ m, body resp = Failure m)
  end.
Proof.
  destruct k as [g oid|g oid|greeting|l|l t|t a];
    destruct r as [[[cd|]|text|audio]|m]; simpl; intros [= <- <-];
    try done; intros resp [= <-]; eauto.
Qed.

Lemma complete_Await_answers (rs : list (env * settled)) :
  ∀ st c k st' cs resp,
    complete rs st (Await c k) = Some (st', cs, resp) →
    cs ≠ [] ∧
    (∀ i, (i < pred (length cs))%nat →
          ∃ e' v, rs !! i = Some (e', Fulfilled v)) ∧
    ((∃ e' m, rs !! pred (length cs) = Some (e', Rejected m) ∧
              resp = Response 500 (Failure m)) ∨
     (∃ e' v, rs !! pred (length cs) = Some (e', Fulfilled v) ∧
              ((status resp = 200%nat ∧ ∀ m, body resp ≠ Failure m) ∨
               (status resp = 404%nat ∧ ∃ m, body resp = Failure m)))).
Proof.
  induction rs as [|[e r] rs IH]; intros st c k st' cs resp Hrun; [done|].
  apply complete_Await in Hrun
    as (e1 & r1 & rs1 & st1 & o1 & cs1 & [= <- <- <-] & Hres & Hrun & ->).
  split; [done|]. pose proof (resume_settles _ _ _ _ _ _ Hres) as Hsettle.
  destruct o1 as [resp1|c1 k1].
  - rewrite complete_Respond in Hrun. simplify_eq/=.
    split; [intros i Hi; lia|]. destruct r as [v|m].
    + right. exists e, v. split; [done|]. by apply Hsettle.
    + left. exists e, m. destruct Hsettle as [_ [= ->]]. done.
  - destruct r as [v|m]; [|by destruct Hsettle].
    destruct (IH _ _ _ _ _ _ Hrun) as (Hne & Hbefore & Hlast).
    assert (length cs1 = S (pred (length cs1))) as Hpos
      by (destruct cs1; [done|simpl; lia]).
    simpl. rewrite Hpos. simpl. split; [|done].
    intros [|i] Hi; simpl; [eauto|]. apply Hbefore. lia.
Qed.


(** X14.  Every answer of a handler has one of the statuses 200,
    400, 404 and 500, and its body agrees with its status: the body is a
    failure message exactly when the status is not 200. *)
Theorem status_and_body_agree (st : state) (e : env) (rq : request)
    (rs : list (env * settled)) (st' : state) (cs : list call)
    (resp : response) :
  handle st e rq rs = Some (st', cs, resp) →
  (status resp = 200%nat ∨ status resp = 400%nat ∨
   status resp = 404%nat ∨ status resp = 500%nat) ∧
  (status resp = 200%nat ↔ ∀ m, body resp ≠ Failure m).
Proof.
  unfold handle. destruct (serve st e rq) as [st0 o] eqn:Hserve.
  assert ((status resp = 200%nat ∧ (∀ m, body resp ≠ Failure m)) ∨
          ((status resp = 400%nat ∨ status resp = 404%nat ∨
            status resp = 500%nat) ∧ ∃ m, body resp = Failure m) →
          (status resp = 200%nat ∨ status resp = 400%nat ∨
           status resp = 404%nat ∨ status resp = 500%nat) ∧
          (status resp = 200%nat ↔ ∀ m, body resp ≠ Failure m)) as Hshape.
  { intros [[H200 Hbody]|[Hstatus [m Hbody]]].
    - split; [by left|done].
    - split; [naive_solver|]. split; [intros; lia|].
      intros Hnot. by destruct (Hnot m). }
  destruct o as [resp0|c k].
  - rewrite complete_Respond. intros [= <- <- <-]. apply Hshape.
    destruct (serve_responds st e rq resp0)
      as [H|[[H Hm]|[[H Hm]%thrown_500 _]]];
      [by rewrite Hserve|by left|right..]; naive_solver.
  - intros Hrun. apply Hshape.
    destruct (complete_Await_answers _ _ _ _ _ _ _ Hrun)
      as (_ & _ & [(e' & m & _ & ->)|(e' & v & _ & [H|[H Hm]])]).
    + right. split; [by right; right|by exists m].
    + by left.
    + right. split; [by right; left|done].
Qed.

(** ** The count of [/health] *)






End Server.

(** ** [transcribeAudio]: the formats are tried in order *)

Lemma transcribe_loop_accepted (root : string) (final : option string)
    (format : string) formats (a : attempt) attempts (fs : gset string) text :
  whisper a = inl text →
  transcribe_loop root final (format :: formats) (a :: attempts) fs =
    Some (fs ∖ {[tempFilePath root (audioId a) format]},
          [tempFilePath root (audioId a) format], Fulfilled (Text text)).
Proof.
  intros Ha. simpl. rewrite Ha. do 3 f_equal. set_solver.
Qed.

Lemma transcribe_loop_refused (root : string) (final : option string)
    (format : string) formats (a : attempt) attempts (fs : gset string) m :
  whisper a = inr m →
  transcribe_loop root final (format :: formats) (a :: attempts) fs =
    let path := tempFilePath root (audioId a) format in
    if decide (Some format = final) then
      Some (fs ∖ {[path]}, [path], Rejected all_formats_failed)
    else
      '(fs, sent, r) ← transcribe_loop root final formats attempts
                          (fs ∖ {[path]});
      Some (fs, path :: sent, r).
Proof.
  intros Ha. simpl. rewrite Ha.
  rewrite (decide_True (P := tempFilePath root (audioId a) format
                              ∈ {[tempFilePath root (audioId a) format]} ∪ fs))
    by (apply elem_of_union_l, elem_of_singleton_2; reflexivity).
  replace (({[tempFilePath root (audioId a) format]} ∪ fs)
             ∖ {[tempFilePath root (audioId a) format]})
    with (fs ∖ {[tempFilePath root (audioId a) format]}) by set_solver.
  done.
Qed.

Lemma transcribe_loop_first_accepted (root : string) (final : option string)
    (i : nat) :
  ∀ formats attempts (fs : gset string) a text,
    (∀ j f, (j < i)%nat → formats !! j = Some f → Some f ≠ final) →
    (i < length formats)%nat →
    attempts !! i = Some a → whisper a = inl text →
    (∀ j a', (j < i)%nat → attempts !! j = Some a' →
             ∃ m, whisper a' = inr m) →
    ∃ fs',
      transcribe_loop root final formats attempts fs =
        Some (fs', temp_files root formats (take (S i) attempts),
              Fulfilled (Text text)).
Proof.
  induction i as [|i IH]; intros formats attempts fs a text Hfinal Hlen Ha Htext
    Hbefore.
  - destruct formats as [|format formats]; [simpl in Hlen; lia|].
    destruct attempts as [|a0 attempts]; simplify_eq/=.
    eexists. by apply transcribe_loop_accepted.
  - destruct formats as [|format formats]; [simpl in Hlen; lia|].
    destruct attempts as [|a0 attempts]; [done|].
    destruct (Hbefore 0%nat a0) as [m Hm]; [lia|done|].
    rewrite (transcribe_loop_refused _ _ _ _ _ _ _ m Hm). cbn zeta.
    rewrite decide_False by (apply (Hfinal 0%nat); [lia|done]).
    destruct (IH formats attempts
                (fs ∖ {[tempFilePath root (audioId a0) format]}) a text)
      as [fs' ->]; try done.
    + intros j f Hj Hf. apply (Hfinal (S j)); [lia|done].
    + simpl in Hlen. lia.
    + intros j a' Hj Ha'. apply (Hbefore (S j)); [lia|done].
    + by eexists.
Qed.

Lemma transcribe_loop_all_refused (root : string) (final : option string) :
  ∀ formats attempts (fs : gset string),
    formats ≠ [] →
    (∀ j f, formats !! j = Some f →
            Some f = final ↔ S j = length formats) →
    (∀ j, (j < length formats)%nat →
          ∃ a m, attempts !! j = Some a ∧ whisper a = inr m) →
    ∃ fs',
      transcribe_loop root final formats attempts fs =
        Some (fs', temp_files root formats (take (length formats) attempts),
              Rejected all_formats_failed).
Proof.
  induction formats as [|format formats IH]; intros attempts fs Hne Hfinal Hall;
    [done|].
  destruct (Hall 0%nat) as (a0 & m & Ha0 & Hm); [simpl; lia|].
  destruct attempts as [|a0' attempts]; [done|].
  injection Ha0 as ->.
  rewrite (transcribe_loop_refused _ _ _ _ _ _ _ m Hm). cbn zeta.
  destruct formats as [|format' formats].
  - rewrite decide_True by (by apply (Hfinal 0%nat)). by eexists.
  - rewrite decide_False.
    2:{ intros Hf. by apply (Hfinal 0%nat) in Hf. }
    destruct (IH attempts (fs ∖ {[tempFilePath root (audioId a0) format]}))
      as [fs' ->]; [done| | |by eexists].
    + intros j f Hj. rewrite (Hfinal (S j) f Hj). simpl. lia.
    + intros j Hj. apply (Hall (S j)). simpl in *. lia.
Qed.

Lemma transcribe_loop_returns (root : string) (final : option string) :
  ∀ formats attempts (fs : gset string),
    (length formats ≤ length attempts)%nat →
    is_Some (transcribe_loop root final formats attempts fs).
Proof.
  induction formats as [|format formats IH]; intros attempts fs Hlen; [done|].
  destruct attempts as [|a attempts]; [simpl in Hlen; lia|].
  destruct (whisper a) as [text|m] eqn:Ha.
  - by rewrite (transcribe_loop_accepted _ _ _ _ _ _ _ text Ha).
  - rewrite (transcribe_loop_refused _ _ _ _ _ _ _ m Ha). cbn zeta.
    case_decide; [done|].
    destruct (IH attempts (fs ∖ {[tempFilePath root (audioId a) format]}))
      as [[[fs' sent] r] ->]; [simpl in Hlen; lia|done].
Qed.

Lemma supportedFormats_final (j : nat) (f : string) :
  supportedFormats !! j = Some f →
  Some f = last supportedFormats ↔ S j = length supportedFormats.
Proof.
  do 5 (destruct j as [|j];
          [intros [= <-]; split; first [discriminate | done]|]).
  done.
Qed.

(** X1.  [transcribeAudio] answers with the text of the first
    format the service accepts, having sent one file per format up to that
    one and none after; when the service refuses all five formats it
    throws "All audio formats failed", after five files.  Five passes are
    always enough for it to settle. *)
Theorem transcribeAudio_first_accepted (root : string)
    (attempts : list attempt) (fs : gset string) :
  (∀ i a text,
     (i < 5)%nat → attempts !! i = Some a → whisper a = inl text →
     (∀ j a', (j < i)%nat → attempts !! j = Some a' →
              ∃ m, whisper a' = inr m) →
     ∃ fs',
       transcribeAudio root attempts fs =
         Some (fs', temp_files root supportedFormats (take (S i) attempts),
               Fulfilled (Text text))) ∧
  ((∀ j, (j < 5)%nat → ∃ a m, attempts !! j = Some a ∧ whisper a = inr m) →
   ∃ fs',
     transcribeAudio root attempts fs =
       Some (fs', temp_files root supportedFormats (take 5 attempts),
             Rejected "All audio formats failed. Audio data may be corrupted.")) ∧
  ((5 ≤ length attempts)%nat → is_Some (transcribeAudio root attempts fs)).
Proof.
  split; [|split; [|apply (transcribe_loop_returns root _ supportedFormats)]].
  - intros i a text Hi Ha Htext Hbefore.
    apply (transcribe_loop_first_accepted root _ i supportedFormats
             attempts fs a text); try done.
    intros j f Hj Hf Hlast. apply (supportedFormats_final j f Hf) in Hlast.
    simpl in Hlast. lia.
  - intros Hall.
    apply (transcribe_loop_all_refused root _ supportedFormats attempts fs);
      [done|apply supportedFormats_final|exact Hall].
Qed.

Lemma transcribe_loop_result (root : string) (final : option string) :
  ∀ formats attempts (fs fs' : gset string) sent r,
    formats ≠ [] → last formats = final →
    transcribe_loop root final formats attempts fs = Some (fs', sent, r) →
    sent = temp_files root formats (take (length sent) attempts) ∧
    (1 ≤ length sent ≤ length formats)%nat ∧
    ((∃ a text, attempts !! pred (length sent) = Some a ∧
                whisper a = inl text ∧ r = Fulfilled (Text text)) ∨
     r = Rejected all_formats_failed) ∧
    (∀ j a, (j < pred (length sent))%nat → attempts !! j = Some a →
            ∃ m, whisper a = inr m).
Proof.
  induction formats as [|format formats IH];
    intros attempts fs fs' sent r Hne Hlast; [done|].
  destruct attempts as [|a attempts]; [done|].
  destruct (whisper a) as [text|m] eqn:Ha.
  - rewrite (transcribe_loop_accepted _ _ _ _ _ _ _ text Ha).
    intros [= <- <- <-]. simpl. split; [done|]. split; [lia|].
    split; [left; by exists a, text|]. intros j a' Hj. lia.
  - rewrite (transcribe_loop_refused _ _ _ _ _ _ _ m Ha). cbn zeta.
    case_decide as Hfinal.
    { intros [= <- <- <-]. simpl. split; [done|]. split; [lia|].
      split; [by right|]. intros j a' Hj. lia. }
    destruct formats as [|format' formats].
    { simpl in Hlast. congruence. }
    destruct (transcribe_loop root final (format' :: formats) attempts _)
      as [[[fs1 sent1] r1]|] eqn:Hloop; [|done].
    simpl. intros [= <- <- <-].
    destruct (IH _ _ _ _ _ ltac:(done) Hlast Hloop)
      as (Hsent & Hlen & Hr & Hbefore).
    split; [simpl; by rewrite <- Hsent|]. split; [simpl in *; lia|].
    assert (length sent1 = S (pred (length sent1))) as Hpos by lia.
    split.
    + destruct Hr as [(a' & text & Ha' & Hr)|Hr]; [left|by right].
      exists a', text. simpl. by rewrite Hpos.
    + intros j a' Hj Ha'. simpl in Hj. destruct j as [|j].
      * simpl in Ha'. simplify_eq. eauto.
      * apply (Hbefore j); [lia|done].
Qed.

(** X2.  Whatever the service answers, [transcribeAudio] sends at
    least one file and at most five, each pass with its own format in the
    order of [supportedFormats]; it fulfils only with the text of the last
    file sent, every file before having been refused; and it rejects only
    with "All audio formats failed": the message of a refused pass is
    never passed on, and the final [throw] of the function is never
    reached. *)
Theorem transcribeAudio_outcomes (root : string) (attempts : list attempt)
    (fs fs' : gset string) (sent : list string) (r : settled) :
  transcribeAudio root attempts fs = Some (fs', sent, r) →
  sent = temp_files root supportedFormats (take (length sent) attempts) ∧
  (1 ≤ length sent ≤ 5)%nat ∧
  ((∃ a text, attempts !! pred (length sent) = Some a ∧
              whisper a = inl text ∧ r = Fulfilled (Text text)) ∨
   r = Rejected "All audio formats failed. Audio data may be corrupted.") ∧
  (∀ j a, (j < pred (length sent))%nat → attempts !! j = Some a →
          ∃ m, whisper a = inr m) ∧
  r ≠ Rejected "Failed to transcribe audio".
Proof.
  intros Hrun.
  destruct (transcribe_loop_result root _ supportedFormats attempts fs fs'
              sent r ltac:(done) eq_refl Hrun) as (Hsent & Hlen & Hr & Hbefore).
  repeat split; try done.
  - apply Hlen.
  - apply Hlen.
  - by destruct Hr as [(a & text & _ & _ & ->)| ->].
Qed.

Lemma transcribe_loop_files (root : string) (final : option string) :
  ∀ formats attempts (fs fs' : gset string) sent r,
    transcribe_loop root final formats attempts fs = Some (fs', sent, r) →
    fs' = fs ∖ list_to_set sent.
Proof.
  induction formats as [|format formats IH]; intros attempts fs fs' sent r.
  { intros [= <- <- <-]. set_solver. }
  destruct attempts as [|a attempts]; [done|].
  destruct (whisper a) as [text|m] eqn:Ha.
  - rewrite (transcribe_loop_accepted _ _ _ _ _ _ _ text Ha).
    intros [= <- <- <-]. set_solver.
  - rewrite (transcribe_loop_refused _ _ _ _ _ _ _ m Ha). cbn zeta.
    case_decide as Hfinal.
    { intros [= <- <- <-]. set_solver. }
    destruct (transcribe_loop root final formats attempts _)
      as [[[fs1 sent1] r1]|] eqn:Hloop; [|done].
    simpl. intros [= <- <- <-]. apply IH in Hloop. set_solver.
Qed.

(** X3.  When [transcribeAudio] returns or throws, none of the
    temporary files it wrote is left, and every other file is as it was:
    the file system is the one before, less the paths of the files sent. *)
Theorem transcribeAudio_removes_temp_files (root : string)
    (attempts : list attempt) (fs fs' : gset string) (sent : list string)
    (r : settled) :
  transcribeAudio root attempts fs = Some (fs', sent, r) →
  (∀ path, path ∈ sent → path ∉ fs') ∧
  (∀ path, path ∉ sent → path ∈ fs' ↔ path ∈ fs) ∧
  ((∀ path, path ∈ sent → path ∉ fs) → fs' = fs).
Proof.
  intros ->%transcribe_loop_files. set_solver.
Qed.

(** X16.  When the transcription service refuses the audio in all
    five formats, the process request is answered 500 "All audio formats
    failed": the transcript is as it was and no completion is asked,
    though the request has refreshed [lastActivity]. *)
Theorem unreadable_audio_answers_500
    (getPatientPrompt : option string → string) (base64 : Buffer → string)
    (st : state) (e e1 : env) (session_id : jsvalue) (buffer : Buffer)
    (l : loc) (s : session) (root : string) (attempts : list attempt)
    (fs : gset string) (rs : list (env * settled)) :
  truthy session_id = true →
  sessions_get st session_id = Some l →
  heap st !! l = Some s →
  active s = true →
  (∀ j, (j < 5)%nat → ∃ a m, attempts !! j = Some a ∧ whisper a = inr m) →
  ∃ fs' sent r st',
    transcribeAudio root attempts fs = Some (fs', sent, r) ∧
    handle getPatientPrompt base64 st e
           (PostProcess session_id (Some buffer)) ((e1, r) :: rs) =
      Some (st', [TranscribeAudio buffer],
            Response 500
              (Failure "All audio formats failed. Audio data may be corrupted.")) ∧
    heap st' !! l =
      Some (Session (gender s) (osce_id s) (conversationHistory s) true
                    (now e)).
Proof.
  intros Ht Hget Hs Ha Hall.
  destruct (transcribe_loop_all_refused root (last supportedFormats)
              supportedFormats attempts fs)
    as [fs' Hrun]; [done|apply supportedFormats_final|exact Hall|].
  exists fs', (temp_files root supportedFormats (take 5 attempts)),
    (Rejected all_formats_failed), (update st l (set_lastActivity (now e))).
  split; [exact Hrun|]. split.
  - unfold handle, serve.
    rewrite (voice_process_live st e _ buffer l s Ht Hget Hs Ha).
    simpl. by rewrite complete_failure.
  - rewrite (lookup_update_eq _ _ _ _ Hs). unfold set_lastActivity.
    by rewrite Ha.
Qed.

(** ** The theorems on the consultation *)

Ltac computed := vm_compute; first [ reflexivity | done ].

Example truthy_values :
  truthy (JStr "Male") = true ∧ truthy (JStr "") = false ∧
  truthy JUndefined = false ∧ truthy JNull = false ∧
  truthy (JNum 0%float) = false ∧ truthy (JNum (-0)%float) = false ∧
  truthy (JNum nan) = false ∧ truthy (JNum 0.5%float) = true ∧
  truthy (JArray []) = true ∧ truthy (JObject []) = true.
Proof. computed. Qed.

Example conversions :
  stringifiable (JObject [("toString", JNull)]) = false ∧
  stringifiable (JArray [JStr "Male"; JObject [("toString", JBool true)]])
    = false ∧
  stringifiable (JObject [("valueOf", JNull)]) = true ∧
  ToString sample_number (JObject [("valueOf", JNull)])
    = Some "[object Object]" ∧
  ToString sample_number (JArray [JStr "Fe"; JNull; JArray [JStr "male"]])
    = Some "Fe,,male" ∧
  ToString sample_number (JArray []) = Some "" ∧
  ToString sample_number (JObject [("toString", JNull)]) = None.
Proof. computed. Qed.

Example voices_of_values :
  generateSpeech_voice sample_number JUndefined
    = Some (VoiceId "pNInz6obpgDQGcFmaJgB") ∧
  generateSpeech_voice sample_number (JArray [JArray [JStr "Female"]])
    = Some (VoiceId "EXAVITQu4vr4xnSDxMaL") ∧
  generateSpeech_voice sample_number (JStr "Other")
    = Some (VoiceId "pNInz6obpgDQGcFmaJgB") ∧
  generateSpeech_voice sample_number (JArray [])
    = Some (VoiceId "pNInz6obpgDQGcFmaJgB") ∧
  generateSpeech_voice sample_number (JArray [JStr "valueOf"])
    = Some (Inherited "valueOf").
Proof. computed. Qed.

(** An init request whose gender cannot be written in the log line is
    answered 500: nothing is looked up and no session is made. *)
Example init_cannot_log :
  run sample_prompt sample_encoding initial_server
    [ (at_time 1000,
       Arrive (PostInit (JObject [("toString", JNull)]) (JStr "case-17"))) ]
  = (Server initial_state ∅ 1,
     [ Reply 0 (Response 500
                  (Failure "Cannot convert object to primitive value")) ]).
Proof. computed. Qed.

(** Requests without a parsed body, on the consultation. *)
Example bodyless_requests :
  let st := mem (talked sample_prompt sample_encoding) in
  let answer property :=
    Some (st, [],
          Response 500
            (Failure ("Cannot destructure property '" +:+ property +:+
                      "' of 'req.body' as it is undefined."))) in
  handle sample_prompt sample_encoding st (at_time 20000) (Bodyless Init) []
    = answer "gender" ∧
  handle sample_prompt sample_encoding st (at_time 20000) (Bodyless Start) []
    = answer "session_id" ∧
  handle sample_prompt sample_encoding st (at_time 20000) (Bodyless Stop) []
    = answer "session_id" ∧
  handle sample_prompt sample_encoding st (at_time 20000) (Bodyless History) []
    = answer "session_id".
Proof. computed. Qed.

Example voices :
  voiceId "Female" = VoiceId "EXAVITQu4vr4xnSDxMaL" ∧
  voiceId "female" = VoiceId "pNInz6obpgDQGcFmaJgB" ∧
  voiceId "toString" = Inherited "toString".
Proof. computed. Qed.

(** What the server sends during the consultation. *)
Example consultation_actions :
  (run sample_prompt sample_encoding initial_server consultation).2 =
  [ Invoke 0 (OscesFindOne (JStr "case-17"));
    Reply 0 (Response 200 (InitOk patient));
    Invoke 1 (GenerateSpeech "Hello Doctor, I'm here for my appointment."
                             (JStr "Male"));
    Reply 1 (Response 200
               (StartOk "" "Hello Doctor, I'm here for my appointment."));
    Invoke 2 (TranscribeAudio []);
    Invoke 2 (GetChatCompletion
                [ Message "system" "Here is your patient profile: chest pain";
                  Message "assistant"
                          "Hello Doctor, I'm here for my appointment.";
                  Message "user" "What brings you in?" ]);
    Invoke 2 (GenerateSpeech "Chest pain." (JStr "Male"));
    Reply 2 (Response 200
               (ProcessOk "What brings you in?" "Chest pain." "")) ].
Proof. computed. Qed.

(** And the session it leaves in the store. *)
Example consultation_session :
  live (mem (talked sample_prompt sample_encoding)) patient =
  Some (Session (JStr "Male") (JStr "case-17")
          [ Message "system" "Here is your patient profile: chest pain";
            Message "assistant" "Hello Doctor, I'm here for my appointment.";
            Message "user" "What brings you in?";
            Message "assistant" "Chest pain." ]
          true 9000).
Proof. computed. Qed.

Lemma reachable_talked :
  reachable sample_prompt sample_encoding (talked sample_prompt sample_encoding).
Proof. exists consultation. reflexivity. Qed.

(** Before [/start], a process request with its audio is refused and the
    store stays as it was. *)
Lemma process_validation_order_witness :
  let sv := initialized sample_prompt sample_encoding in
  handle sample_prompt sample_encoding (mem sv) (at_time 1500)
         (PostProcess (JStr patient) (Some [])) []
    = Some (mem sv, [],
            Response 400 (Failure "Session not active. Call /start first.")).
Proof.
  pose proof (process_validation_order sample_prompt sample_encoding
                (initialized sample_prompt sample_encoding) (at_time 1500)
                (JStr patient) (Some []) []) as H.
  cbv zeta in *. destruct H as (_ & _ & _ & H).
  refine (proj1 (H _ _ 0%nat _ _)); [computed | by eexists | computed..].
Defined.

(** The process call of the consultation, run on the started session. *)
Lemma turns_appended_witness :
  let st := mem (started sample_prompt sample_encoding) in
  ∃ st' cs,
    handle sample_prompt sample_encoding st (at_time 9000)
           (PostProcess (JStr patient) (Some []))
           [ (at_time 9500, Fulfilled (Text "What brings you in?"));
             (at_time 9900, Fulfilled (Text "Chest pain."));
             (at_time 9990, Fulfilled (Audio [])) ]
      = Some (st', cs,
              Response 200 (ProcessOk "What brings you in?" "Chest pain." "")) ∧
    conversationHistory (deref st' 0) =
      conversationHistory (deref st 0) ++
        [Message "user" "What brings you in?";
         Message "assistant" "Chest pain."].
Proof.
  intros st.
  destruct (turns_appended sample_prompt sample_encoding st (at_time 9000)
              (JStr patient) 0%nat (deref st 0))
    as (_ & _ & _ & H); [computed..|].
  apply (H eq_refl [] (at_time 9500) (at_time 9900) (at_time 9990)
           "What brings you in?" "Chest pain." [] []).
Defined.

(** The completion fails during the process call of the consultation. *)
Lemma failed_process_keeps_user_turn_witness :
  let st := mem (started sample_prompt sample_encoding) in
  ∃ st' shown,
    handle sample_prompt sample_encoding st (at_time 9000)
           (PostProcess (JStr patient) (Some []))
           [ (at_time 9500, Fulfilled (Text "What brings you in?"));
             (at_time 9900, Rejected "Request timed out.") ]
      = Some (st',
              [TranscribeAudio [];
               GetChatCompletion
                 (conversationHistory (deref st 0) ++
                    [Message "user" "What brings you in?"])],
              Response 500 (Failure "Request timed out.")) ∧
    conversationHistory (deref st' 0) =
      conversationHistory (deref st 0) ++
        [Message "user" "What brings you in?"] ∧
    voice_history st' (JStr patient) =
      (st', success (HistoryOk
                       (shown ++ [Message "user" "What brings you in?"]))).
Proof.
  intros st.
  destruct (failed_process_keeps_user_turn sample_prompt sample_encoding st
              (at_time 9000) (JStr patient) [] 0%nat (deref st 0)
              (at_time 9500) (at_time 9900) (at_time 9990)
              "What brings you in?" "Chest pain." "Request timed out." [])
    as [H _]; [computed..|].
  exact H.
Defined.

(** Three start requests on the session that the consultation started. *)
Lemma start_is_repeatable_witness :
  let st := mem (started sample_prompt sample_encoding) in
  let greeting :=
    Message "assistant" "Hello Doctor, I'm here for my appointment." in
  conversationHistory
    (deref (starts [at_time 3000; at_time 4000; at_time 5000] st
                   (JStr patient)) 0)
    = conversationHistory (deref st 0) ++ [greeting; greeting; greeting].
Proof.
  intros st greeting.
  destruct (start_is_repeatable sample_prompt sample_encoding st
              (JStr patient) 0%nat (deref st 0)
              [at_time 3000; at_time 4000; at_time 5000])
    as (_ & _ & H & _); [computed..|].
  exact H.
Defined.

(** The history of the consultation. *)
Lemma history_excludes_system_turn_witness :
  let sv := talked sample_prompt sample_encoding in
  ∃ shown,
    voice_history (mem sv) (JStr patient)
      = (mem sv, success (HistoryOk shown)) ∧
    shown = filter (λ msg, role msg ≠ "system")
                   (conversationHistory (deref (mem sv) 0)) ∧
    Forall (λ msg, role msg ≠ "system") shown ∧
    (reachable sample_prompt sample_encoding sv →
     ∃ prompt,
       conversationHistory (deref (mem sv) 0)
         = Message "system" prompt :: shown).
Proof.
  intros sv.
  apply (history_excludes_system_turn sample_prompt sample_encoding sv
           (JStr patient) 0%nat (deref (mem sv) 0)); computed.
Defined.

(** The transcript of the consultation. *)
Lemma transcript_starts_with_system_turn_witness :
  let sv := talked sample_prompt sample_encoding in
  let s := deref (mem sv) 0 in
  conversationHistory s ≠ [] ∧
  ∃ prompt rest,
    conversationHistory s = Message "system" prompt :: rest ∧
    Forall spoken rest.
Proof.
  intros sv s.
  apply (proj1 (transcript_starts_with_system_turn sample_prompt
                  sample_encoding sv reachable_talked) patient s).
  computed.
Defined.


(** The consultation is stopped, or swept after an idle hour; later the
    sweeper runs and another session is made.  The id is not found. *)
Lemma deleted_session_not_found_witness :
  let sv := talked sample_prompt sample_encoding in
  let afterwards :=
    [ (later 4000000, Tick);
      (later 4000100, Arrive (PostInit (JStr "Female") (JStr "case-18")));
      (later 4000200, Settle 4 (Fulfilled (Row (Some None)))) ] in
  let not_found st' :=
    handle sample_prompt sample_encoding st' (later 4100000)
           (PostHistory (JStr patient)) []
      = Some (st', [], Response 404 (Failure "Session not found")) in
  not_found
    (mem (run sample_prompt sample_encoding
            (step sample_prompt sample_encoding sv (later 3700000)
                  (Arrive (PostStop (JStr patient)))).1 afterwards).1) ∧
  not_found
    (mem (run sample_prompt sample_encoding
            (step sample_prompt sample_encoding sv (later 3700000) Tick).1
            afterwards).1).
Proof.
  intros sv afterwards not_found.
  assert (Forall (λ x : env * event, uuid x.1 ≠ patient) afterwards) as Hids
    by (repeat constructor; computed).
  assert (patient ≠ "") as Hne by computed.
  assert (sessions (mem sv) !! patient = Some 0%nat) as Hl by computed.
  assert (expired (mem sv) (now (later 3700000)) (patient, 0%nat)) as Hidle
    by computed.
  split.
  - destruct (deleted_session_not_found sample_prompt sample_encoding sv _
                (later 3700000) patient 0%nat afterwards reachable_talked
                Hne Hl (or_introl eq_refl) Hids) as [_ H].
    apply (H (later 4100000) [] []).
  - destruct (deleted_session_not_found sample_prompt sample_encoding sv _
                (later 3700000) patient 0%nat afterwards reachable_talked
                Hne Hl (or_intror (conj eq_refl Hidle)) Hids) as [_ H].
    apply (H (later 4100000) [] []).
Defined.

(** The session of the consultation was last active at 9000; the timer
    was armed at 0. *)
Lemma idle_session_swept_witness :
  let st := mem (talked sample_prompt sample_encoding) in
  sessions (cleanupOldSessions st (9000 + 30 * 60 * 1000)) !! patient
    = Some 0%nat ∧
  sessions (cleanupOldSessions st (9000 + 30 * 60 * 1000 + 1)) !! patient
    = None ∧
  sessions (sweeps 0 7 st) !! patient = None.
Proof.
  intros st.
  destruct (idle_session_swept sample_prompt sample_encoding
              (talked sample_prompt sample_encoding) patient 0%nat
              (deref st 0) 0 reachable_talked)
    as (Hkeep & Hdelete & (k & Hk & Hgone) & _); [computed..|].
  split; [apply Hkeep; computed|].
  split; [apply Hdelete; computed|].
  apply Hgone.
  assert (lastActivity (deref st 0) = 9000) as Hla by computed.
  rewrite Hla in Hk. unfold sweep_at, sweepInterval in Hk. lia.
Defined.

(** A start and a process request on the session of the consultation. *)
Lemma start_and_process_refresh_activity_witness :
  let st := mem (talked sample_prompt sample_encoding) in
  lastActivity (deref (voice_start st (at_time 20000) (JStr patient)).1 0)
    = 20000 ∧
  lastActivity
    (deref (voice_process st (at_time 21000) (JStr patient) (Some [])).1 0)
    = 21000.
Proof.
  intros st.
  destruct (start_and_process_refresh_activity sample_prompt sample_encoding
              st (at_time 20000) (JStr patient) 0%nat (deref st 0))
    as (Hstart & _); [computed..|].
  destruct (start_and_process_refresh_activity sample_prompt sample_encoding
              st (at_time 21000) (JStr patient) 0%nat (deref st 0))
    as (_ & Hprocess & _); [computed..|].
  split; [exact Hstart|]. apply Hprocess. computed.
Defined.

(** ** What [/history] and [/init] do not do *)

(** Against C5: a history request on the session of the consultation, at
    time 50000, is answered 200, and the session is still last active at
    9000, the time of its process request. *)
Lemma history_does_not_refresh_activity :
  let st := mem (talked sample_prompt sample_encoding) in
  let served := serve st (at_time 50000) (PostHistory (JStr patient)) in
  served.2 =
    success (HistoryOk
      [ Message "assistant" "Hello Doctor, I'm here for my appointment.";
        Message "user" "What brings you in?";
        Message "assistant" "Chest pain." ]) ∧
  lastActivity <$> live served.1 patient = Some 9000 ∧
  now (at_time 50000) ≠ 9000.
Proof. computed. Qed.


(** ** The further theorems on examples *)

(** The service refuses the upload as WebM and accepts it as WAV. *)
Lemma transcribeAudio_first_accepted_witness :
  ∃ fs',
    transcribeAudio "/srv/voice_api"
      [ Attempt "a1" (inr "Invalid file format.");
        Attempt "a2" (inl "What brings you in?") ] ∅ =
    Some (fs',
          [ "/srv/voice_api/temp_audio_a1.webm";
            "/srv/voice_api/temp_audio_a2.wav" ],
          Fulfilled (Text "What brings you in?")).
Proof.
  destruct (transcribeAudio_first_accepted "/srv/voice_api"
              [ Attempt "a1" (inr "Invalid file format.");
                Attempt "a2" (inl "What brings you in?") ] ∅) as [H _].
  apply (H 1%nat (Attempt "a2" (inl "What brings you in?"))
           "What brings you in?"); [lia|done|done|].
  intros [|j] a' Hj Ha'; [|lia]. simplify_eq/=. eauto.
Defined.

(** The service refuses the upload in every format. *)
Lemma transcribeAudio_outcomes_witness :
  let refused id := Attempt id (inr "Invalid file format.") in
  let attempts :=
    [refused "a1"; refused "a2"; refused "a3"; refused "a4"; refused "a5"] in
  let sent :=
    [ "/srv/voice_api/temp_audio_a1.webm"; "/srv/voice_api/temp_audio_a2.wav";
      "/srv/voice_api/temp_audio_a3.mp3"; "/srv/voice_api/temp_audio_a4.mp4";
      "/srv/voice_api/temp_audio_a5.m4a" ] in
  transcribeAudio "/srv/voice_api" attempts ∅ =
    Some (∅, sent, Rejected all_formats_failed) ∧
  (1 ≤ length sent ≤ 5)%nat ∧
  Rejected all_formats_failed ≠ Rejected "Failed to transcribe audio".
Proof.
  intros refused attempts sent.
  assert (transcribeAudio "/srv/voice_api" attempts ∅ =
          Some (∅, sent, Rejected all_formats_failed)) as Hrun by computed.
  destruct (transcribeAudio_outcomes _ _ _ _ _ _ Hrun)
    as (_ & Hlen & _ & _ & Hnever).
  split; [exact Hrun|]. split; [exact Hlen|exact Hnever].
Defined.

(** The two temporary files are gone and the module's own file is
    there. *)
Lemma transcribeAudio_removes_temp_files_witness :
  let fs : gset string := {["/srv/voice_api/index.js"]} in
  let sent :=
    [ "/srv/voice_api/temp_audio_a1.webm";
      "/srv/voice_api/temp_audio_a2.wav" ] in
  transcribeAudio "/srv/voice_api"
    [ Attempt "a1" (inr "Invalid file format.");
      Attempt "a2" (inl "What brings you in?") ] fs =
    Some (fs, sent, Fulfilled (Text "What brings you in?")) ∧
  ("/srv/voice_api/temp_audio_a1.webm" ∉ fs) ∧
  ("/srv/voice_api/temp_audio_a2.wav" ∉ fs).
Proof.
  intros fs sent.
  assert (transcribeAudio "/srv/voice_api"
            [ Attempt "a1" (inr "Invalid file format.");
              Attempt "a2" (inl "What brings you in?") ] fs =
          Some (fs, sent, Fulfilled (Text "What brings you in?"))) as Hrun
    by computed.
  destruct (transcribeAudio_removes_temp_files _ _ _ _ _ _ Hrun)
    as (Hgone & _ & _).
  split; [exact Hrun|]. split; apply Hgone; repeat constructor.
Defined.

(** The audio of the consultation is refused in every format. *)
Lemma unreadable_audio_answers_500_witness :
  let refused id := Attempt id (inr "Invalid file format.") in
  let attempts :=
    [refused "a1"; refused "a2"; refused "a3"; refused "a4"; refused "a5"] in
  let st := mem (started sample_prompt sample_encoding) in
  ∃ fs' sent r st',
    transcribeAudio "/srv/voice_api" attempts ∅ = Some (fs', sent, r) ∧
    handle sample_prompt sample_encoding st (at_time 9000)
           (PostProcess (JStr patient) (Some [])) [(at_time 9500, r)] =
      Some (st', [TranscribeAudio []],
            Response 500
              (Failure "All audio formats failed. Audio data may be corrupted.")) ∧
    heap st' !! 0%nat =
      Some (Session (gender (deref st 0)) (osce_id (deref st 0))
              (conversationHistory (deref st 0)) true (now (at_time 9000))).
Proof.
  intros refused attempts st.
  apply (unreadable_audio_answers_500 sample_prompt sample_encoding st
           (at_time 9000) (at_time 9500) (JStr patient) [] 0%nat (deref st 0)
           "/srv/voice_api" attempts ∅ []); try computed.
  intros j Hj. do 5 (destruct j as [|j]; [by eexists _, _|]). lia.
Defined.

(** A second init, for a case that neither table has. *)
Lemma init_outcomes_witness :
  let st := mem (talked sample_prompt sample_encoding) in
  let nothing := Fulfilled (Row None) in
  handle sample_prompt sample_encoding st (later 20000)
         (PostInit (JStr "Female") (JStr "case-99"))
         [(later 20010, nothing); (later 20020, nothing)] =
    Some (st,
          [ OscesFindOne (JStr "case-99");
            VirtualPatientSimulationsFindOne (JStr "case-99") ],
          Response 404 (Failure "OSCE case not found")).
Proof.
  intros st nothing.
  destruct (handle sample_prompt sample_encoding st (later 20000)
              (PostInit (JStr "Female") (JStr "case-99"))
              [(later 20010, nothing); (later 20020, nothing)])
    as [[[st' cs] resp]|] eqn:Hrun; [|by vm_compute in Hrun].
  destruct (init_outcomes sample_prompt sample_encoding _ _ _ _ _ _ _ _ Hrun)
    as (_ & _ & _ & _ & _ & _ & Hsame & H404 & _).
  assert (cs = [ OscesFindOne (JStr "case-99");
                 VirtualPatientSimulationsFindOne (JStr "case-99") ] ∧
          status resp = 404%nat) as [-> Hstatus].
  { vm_compute in Hrun. by simplify_eq. }
  destruct (H404 Hstatus) as [-> _].
  by rewrite (Hsame ltac:(done)).
Defined.

(** The speech synthesis fails on the first start of the consultation. *)
Lemma failed_start_still_activates_witness :
  let st := mem (initialized sample_prompt sample_encoding) in
  ∃ st',
    handle sample_prompt sample_encoding st (at_time 2000)
           (PostStart (JStr patient)) [(at_time 2400, Rejected "Network Error")]
      = Some (st', [GenerateSpeech initialGreeting (gender (deref st 0))],
              Response 500 (Failure "Network Error")) ∧
    heap st' !! 0%nat =
      Some (Session (gender (deref st 0)) (osce_id (deref st 0))
              (conversationHistory (deref st 0) ++
                 [Message "assistant" initialGreeting])
              true (now (at_time 2000))) ∧
    ∀ e2 buffer,
      (voice_process st' e2 (JStr patient) (Some buffer)).2 =
        Await (TranscribeAudio buffer) (ProcessAfterTranscribe 0).
Proof.
  intros st.
  apply (failed_start_still_activates sample_prompt sample_encoding st
           (at_time 2000) (at_time 2400) (JStr patient) 0%nat (deref st 0)
           "Network Error" []); computed.
Defined.

(** The first of the two sessions is stopped. *)
Lemma stop_removes_only_that_session_witness :
  let st := mem (two_patients sample_prompt sample_encoding) in
  ∃ st',
    handle sample_prompt sample_encoding st (later 30000)
           (PostStop (JStr patient)) [] = Some (st', [], Response 200 StopOk) ∧
    heap st' = heap st ∧
    sessions_get st' (JStr patient) = None ∧
    (∀ id, JStr id ≠ JStr patient →
           sessions st' !! id = sessions st !! id) ∧
    size (sessions st') = pred (size (sessions st)) ∧
    handle sample_prompt sample_encoding st' (later 31000)
           (PostStop (JStr patient)) [] =
      Some (st', [], Response 404 (Failure "Session not found")).
Proof.
  intros st.
  apply (stop_removes_only_that_session sample_prompt sample_encoding st
           (later 30000) (later 31000) (JStr patient) 0%nat [] []); computed.
Defined.

(** The consultation is stopped while its process call awaits the
    transcription; the call still answers, and the session stays out of
    the store. *)
Lemma process_in_flight_outlives_session_witness :
  let sv := interrupted sample_prompt sample_encoding in
  let settles :=
    [ (later 9500, Settle 2 (Fulfilled (Text "What brings you in?")));
      (later 9900, Settle 2 (Fulfilled (Text "Chest pain.")));
      (later 9990, Settle 2 (Fulfilled (Audio []))) ] in
  sessions (mem sv) = ∅ ∧
  (run sample_prompt sample_encoding sv settles).2 =
    [ Invoke 2 (GetChatCompletion
                  (conversationHistory (deref (mem sv) 0) ++
                     [Message "user" "What brings you in?"]));
      Invoke 2 (GenerateSpeech "Chest pain." (gender (deref (mem sv) 0)));
      Reply 2 (Response 200
                 (ProcessOk "What brings you in?" "Chest pain."
                            (sample_encoding []))) ] ∧
  sessions (mem (run sample_prompt sample_encoding sv settles).1) = ∅.
Proof.
  intros sv settles.
  destruct (process_in_flight_outlives_session sample_prompt sample_encoding
              sv 2%nat 0%nat (deref (mem sv) 0) (later 9500) (later 9900)
              (later 9990) "What brings you in?" "Chest pain." [])
    as (Hout & Hsessions & _); [computed..|].
  split; [computed|]. split; [exact Hout|].
  etrans; [exact Hsessions|computed].
Defined.

(** Two process requests on the consultation, both transcribed before
    either is completed. *)
Lemma processes_in_flight_interleave_witness :
  let sv := overlapping sample_prompt sample_encoding in
  let settles :=
    [ (at_time 9500, Settle 2 (Fulfilled (Text "What brings you in?")));
      (at_time 9600, Settle 3 (Fulfilled (Text "Since when?")));
      (at_time 9900, Settle 2 (Fulfilled (Text "Chest pain.")));
      (at_time 9950, Settle 3 (Fulfilled (Text "Since yesterday."))) ] in
  conversationHistory
    (deref (mem (run sample_prompt sample_encoding sv settles).1) 0) =
  conversationHistory (deref (mem sv) 0) ++
    [ Message "user" "What brings you in?"; Message "user" "Since when?";
      Message "assistant" "Chest pain.";
      Message "assistant" "Since yesterday." ].
Proof.
  intros sv settles.
  destruct (processes_in_flight_interleave sample_prompt sample_encoding
              sv 2%nat 3%nat 0%nat (deref (mem sv) 0)
              (at_time 9500) (at_time 9600) (at_time 9900) (at_time 9950)
              "What brings you in?" "Since when?" "Chest pain."
              "Since yesterday.")
    as (_ & Hhistory); [lia|computed..|].
  exact Hhistory.
Defined.

(** The consultation stays active through a sweep, a second init and a
    history request. *)
Lemma active_is_never_reset_witness :
  let sv := started sample_prompt sample_encoding in
  let evs :=
    [ (later 600000, Tick);
      (later 600100, Arrive (PostInit (JStr "Female") (JStr "case-18")));
      (later 600200, Arrive (PostHistory (JStr patient))) ] in
  ∃ s', heap (mem (run sample_prompt sample_encoding sv evs).1) !! 0%nat
          = Some s' ∧
        active s' = true.
Proof.
  intros sv evs.
  apply (active_is_never_reset sample_prompt sample_encoding sv evs 0%nat
           (deref (mem sv) 0)); computed.
Defined.

(** A start and a failed process on the second session leave the first
    session as it was. *)
Lemma handler_changes_only_its_session_witness :
  let st := mem (two_patients sample_prompt sample_encoding) in
  ∃ st' cs resp,
    handle sample_prompt sample_encoding st (later 30000)
           (PostStart (JStr second_patient))
           [(later 30400, Fulfilled (Audio []))] = Some (st', cs, resp) ∧
    heap st' !! 0%nat = Some (deref st 0).
Proof.
  intros st.
  destruct (handle sample_prompt sample_encoding st (later 30000)
              (PostStart (JStr second_patient))
              [(later 30400, Fulfilled (Audio []))])
    as [[[st' cs] resp]|] eqn:Hrun; [|by vm_compute in Hrun].
  exists st', cs, resp. split; [done|].
  apply (handler_changes_only_its_session sample_prompt sample_encoding st
           (later 30000) (PostStart (JStr second_patient))
           [(later 30400, Fulfilled (Audio []))] st' cs resp 0%nat
           (deref st 0) Hrun); computed.
Defined.


(** The answer to a start on an id that is not in the store. *)
Lemma status_and_body_agree_witness :
  let st := mem (talked sample_prompt sample_encoding) in
  ∃ st' cs resp,
    handle sample_prompt sample_encoding st (later 30000)
           (PostStart (JStr second_patient)) [] = Some (st', cs, resp) ∧
    (status resp = 200%nat ↔ ∀ m, body resp ≠ Failure m).
Proof.
  intros st.
  destruct (handle sample_prompt sample_encoding st (later 30000)
              (PostStart (JStr second_patient)) [])
    as [[[st' cs] resp]|] eqn:Hrun; [|by vm_compute in Hrun].
  exists st', cs, resp. split; [done|].
  apply (status_and_body_agree sample_prompt sample_encoding _ _ _ _ _ _ _
           Hrun).
Defined.

(** A second session is made beside the consultation. *)
Lemma init_binds_only_the_new_id_witness :
  let st := mem (talked sample_prompt sample_encoding) in
  let st' :=
    (init_create sample_prompt st (later 20010) (JStr "Female")
                 (JStr "case-18") None).1 in
  size (sessions st') = 2%nat ∧
  handle sample_prompt sample_encoding st' (later 21000)
         (PostProcess (JStr second_patient) (Some [])) [] =
    Some (st', [],
          Response 400 (Failure "Session not active. Call /start first.")) ∧
  handle sample_prompt sample_encoding st' (later 21000)
         (PostHistory (JStr second_patient)) [] =
    Some (st', [], Response 200 (HistoryOk [])).
Proof.
  intros st st'.
  destruct (init_binds_only_the_new_id sample_prompt sample_encoding st
              (later 20010) (JStr "Female") (JStr "case-18") None)
    as (_ & _ & _ & Hsize & Hnew).
  split; [etrans; [apply Hsize|]; computed|].
  apply (Hnew ltac:(computed) (later 21000) [] []).
Defined.

(** The two sessions are swept when the first has been idle for more
    than thirty minutes and the second has not, and again later. *)
Lemma sweep_keeps_exactly_the_fresh_witness :
  let st := mem (two_patients sample_prompt sample_encoding) in
  sessions (cleanupOldSessions st 1810000) !! patient = None ∧
  sessions (cleanupOldSessions st 1810000) !! second_patient = Some 1%nat ∧
  cleanupOldSessions (cleanupOldSessions st 1810000) 1900000
    = cleanupOldSessions st 1900000.
Proof.
  intros st.
  destruct (sweep_keeps_exactly_the_fresh st 1810000)
    as (Hkept & _ & _ & _ & Hlater).
  split; [|split].
  - destruct (sessions (cleanupOldSessions st 1810000) !! patient)
      as [l|] eqn:Hl; [|reflexivity].
    apply Hkept in Hl as [Hl Hfresh].
    vm_compute in Hl. injection Hl as <-.
    vm_compute in Hfresh. exfalso. apply Hfresh. reflexivity.
  - apply Hkept. split; [computed|]. vm_compute. discriminate.
  - apply Hlater. lia.
Defined.

